(** * Siraj: destination resolution of the voice assistant

    A shallow embedding of the resolution core of [siraj_pipeline.py]
    (wake word, [extract_destination], [find_best_match], [get_path] and the
    body of the interactive loop) and of [lookup_route] from
    [siraj_super_version.py], with the parts of Python's [re], [pandas] and
    [fuzzywuzzy] these functions call. *)

From Stdlib Require Import ZArith List Bool String Ascii Lia.
Import ListNotations.
Local Open Scope Z_scope.

(** ** Python values used by the program *)

Module Py.

(** A Python [str] is a sequence of Unicode code points. *)
Definition str := list Z.

(** Decoding of a UTF-8 source literal into its code points, so that the
    literals of the program can be written as they stand in the source. *)
Fixpoint utf8_decode (bs : list Z) : str :=
  match bs with
  | [] => []
  | b0 :: r0 =>
      if b0 <? 128 then b0 :: utf8_decode r0
      else
        match r0 with
        | [] => []
        | b1 :: r1 =>
            if b0 <? 224 then ((b0 - 192) * 64 + (b1 - 128)) :: utf8_decode r1
            else
              match r1 with
              | [] => []
              | b2 :: r2 =>
                  if b0 <? 240
                  then ((b0 - 224) * 4096 + (b1 - 128) * 64 + (b2 - 128))
                         :: utf8_decode r2
                  else
                    match r2 with
                    | [] => []
                    | b3 :: r3 =>
                        ((b0 - 240) * 262144 + (b1 - 128) * 4096
                         + (b2 - 128) * 64 + (b3 - 128)) :: utf8_decode r3
                    end
              end
        end
  end.

Definition utf8 (s : string) : str :=
  utf8_decode (map (fun a => Z.of_N (N_of_ascii a)) (list_ascii_of_string s)).

Definition str_eqb (a b : str) : bool :=
  if list_eq_dec Z.eq_dec a b then true else false.

(** [str.isspace] of one character, which is also the set [\s] of a [str]
    pattern: the characters with bidirectional type WS, B or S, or of
    category Zs. *)
Definition isspace (c : Z) : bool :=
  ((9 <=? c) && (c <=? 13)) || ((28 <=? c) && (c <=? 32))
  || (c =? 0x85) || (c =? 0xA0) || (c =? 0x1680)
  || ((0x2000 <=? c) && (c <=? 0x200A))
  || (c =? 0x2028) || (c =? 0x2029) || (c =? 0x202F) || (c =? 0x205F)
  || (c =? 0x3000).

Fixpoint lstrip (s : str) : str :=
  match s with
  | c :: s' => if isspace c then lstrip s' else s
  | [] => []
  end.

Definition rstrip (s : str) : str := rev (lstrip (rev s)).

(** [s.strip()] *)
Definition strip (s : str) : str := rstrip (lstrip s).

(** [sub in s] *)
Fixpoint startswith (p s : str) : bool :=
  match p, s with
  | [], _ => true
  | a :: p', b :: s' => (a =? b) && startswith p' s'
  | _ :: _, [] => false
  end.

Fixpoint contains (sub s : str) : bool :=
  startswith sub s
  || match s with
     | [] => false
     | _ :: s' => contains sub s'
     end.

(** The exceptions the modelled code can raise. *)
Inductive exn := TypeError | IndexError | AttributeError.

Inductive result (A : Type) :=
| Ok (a : A)
| Raise (e : exn).
Arguments Ok {A} a.
Arguments Raise {A} e.

Definition bind {A B} (r : result A) (f : A -> result B) : result B :=
  match r with
  | Ok a => f a
  | Raise e => Raise e
  end.

(** A cell of the table, or any value the program passes around: a string,
    or the missing-value marker of a table (the float [nan]). *)
Inductive value :=
| PStr (s : str)
| PNaN.

(** [a == b]: [nan] is equal to nothing, itself included. *)
Definition py_eq (a b : value) : bool :=
  match a, b with
  | PStr x, PStr y => str_eqb x y
  | _, _ => false
  end.

(** Truth value, as [if not path] takes it: only the empty string is false. *)
Definition truthy (v : value) : bool :=
  match v with
  | PStr [] => false
  | PStr (_ :: _) => true
  | PNaN => true
  end.

(** [str(v)], as an f-string renders a value. *)
Definition to_str (v : value) : str :=
  match v with
  | PStr s => s
  | PNaN => utf8 "nan"
  end.

End Py.

(** ** The part of [re] the extractor uses *)

Module Re.
Import Py.

(** Patterns: literals, one-character sets, sequence, ordered alternation,
    greedy repetition of a one-character set (the only repetitions of the
    program's pattern) and the capturing group number 1. *)
Inductive regex :=
| Lit (c : Z)
| CharSet (p : Z -> bool)
| Cat (r1 r2 : regex)
| Alt (r1 r2 : regex)
| Star (p : Z -> bool)
| Plus (p : Z -> bool)
| Group (r : regex).

(** Greedy repetition with backtracking: take as many characters of the set
    as there are, and give them back one at a time while the rest fails. *)
Fixpoint greedy {A} (p : Z -> bool) (s : str) (k : str -> option A) : option A :=
  match s with
  | c :: s' =>
      if p c
      then match greedy p s' k with
           | Some r => Some r
           | None => k s
           end
      else k s
  | [] => k []
  end.

(** The backtracking matcher, anchored at the head of [s]. [g] is the text
    of group 1 so far, [k] the rest of the match. *)
Fixpoint rmatch {A} (r : regex) (s : str) (g : option str)
         (k : str -> option str -> option A) : option A :=
  match r with
  | Lit c =>
      match s with
      | x :: s' => if x =? c then k s' g else None
      | [] => None
      end
  | CharSet p =>
      match s with
      | x :: s' => if p x then k s' g else None
      | [] => None
      end
  | Cat r1 r2 => rmatch r1 s g (fun s1 g1 => rmatch r2 s1 g1 k)
  | Alt r1 r2 =>
      match rmatch r1 s g k with
      | Some x => Some x
      | None => rmatch r2 s g k
      end
  | Star p => greedy p s (fun s' => k s' g)
  | Plus p =>
      match s with
      | x :: s' => if p x then greedy p s' (fun s'' => k s'' g) else None
      | [] => None
      end
  | Group r1 =>
      rmatch r1 s g
        (fun s' _ => k s' (Some (firstn (List.length s - List.length s') s)))
  end.

(** A match object, reduced to what the program reads of it: [group(1)]
    ([None] when the group took no part in the match). *)
Definition match_obj := option str.

Definition match_here (r : regex) (s : str) : option match_obj :=
  rmatch r s None (fun _ g => Some g).

(** [re.search(r, s)]: the leftmost position where the pattern matches. *)
Fixpoint search (r : regex) (s : str) : option match_obj :=
  match match_here r s with
  | Some m => Some m
  | None =>
      match s with
      | [] => None
      | _ :: s' => search r s'
      end
  end.

End Re.

(** ** [siraj_pipeline.py]: the name extractor *)

Module Extractor.
Import Py Re.

Definition ALEF_HAMZA_BELOW : Z := 0x625.
Definition LAM : Z := 0x644.
Definition ALEF_MAKSURA : Z := 0x649.
Definition TATWEEL : Z := 0x640.

(** The three markers of the pattern, in the order of its alternation. *)
Definition markers : list str :=
  [ [ALEF_HAMZA_BELOW; LAM; ALEF_MAKSURA]; [LAM; TATWEEL]; [LAM] ].

(** The set of the Arabic block, U+0600 to U+06FF. *)
Definition is_arabic (c : Z) : bool := (0x600 <=? c) && (c <=? 0x6FF).

(** The set of the group: the Arabic block and [\s]. *)
Definition name_char (c : Z) : bool := is_arabic c || isspace c.

(** The pattern of [extract_destination]: the three markers as ordered
    alternatives, [\s*], and the group of one or more name characters. *)
Definition destination_pattern : regex :=
  Cat (Alt (Cat (Lit ALEF_HAMZA_BELOW) (Cat (Lit LAM) (Lit ALEF_MAKSURA)))
           (Alt (Cat (Lit LAM) (Lit TATWEEL))
                (Lit LAM)))
      (Cat (Star isspace)
           (Group (Plus name_char))).

(** [match.group(1).strip()] when the pattern is found, else [text.strip()]. *)
Definition extract_destination (text : str) : result str :=
  match search destination_pattern text with
  | Some (Some g) => Ok (strip g)
  | Some None => Raise AttributeError
  | None => Ok (strip text)
  end.

End Extractor.

(** ** The part of [fuzzywuzzy] the resolver uses

    [process.extractOne] with its default processor and scorer, as in
    fuzzywuzzy 0.18 under Python 3. *)

Module Fuzzy.
Import Py.

(** What the library takes from outside this development: the Unicode
    tables beyond ASCII ([str.isalnum] of a character, [str.lower] of a
    string that is not pure ASCII) and the weighted ratio that [fuzz.WRatio]
    computes, in floating point, for two non-empty processed strings. *)
Record library := {
  uni_isalnum : Z -> bool;
  uni_lower : str -> str;
  weighted : str -> str -> Z
}.

Section Process.
Variable L : library.

Definition isalnum (c : Z) : bool :=
  if c <? 128
  then ((48 <=? c) && (c <=? 57)) || ((65 <=? c) && (c <=? 90))
       || ((97 <=? c) && (c <=? 122))
  else uni_isalnum L c.

(** [\w] of a [str] pattern *)
Definition is_word (c : Z) : bool := isalnum c || (c =? 95).

Definition lower (s : str) : str :=
  if forallb (fun c => c <? 128) s
  then map (fun c => if (65 <=? c) && (c <=? 90) then c + 32 else c) s
  else uni_lower L s.

(** [utils.asciionly]: the translation table deletes the code points
    128..255. [utils.asciidammit] turns a value that is no [str] into
    [str(v)] first. *)
Definition asciionly (s : str) : str :=
  filter (fun c => negb ((128 <=? c) && (c <=? 255))) s.

Definition asciidammit (v : value) : str := asciionly (to_str v).

(** [utils.full_process] after its [force_ascii] step: every character
    that is not a word character becomes a blank, then lower case, then
    [strip]. *)
Definition process_str (s : str) : str :=
  strip (lower (map (fun c => if is_word c then c else 32) s)).

(** [utils.full_process(s, force_ascii=False)] on a [str] *)
Definition full_process (s : str) : str := process_str s.

(** [utils.full_process(v, force_ascii=True)] *)
Definition full_process_ascii (v : value) : str := process_str (asciidammit v).

(** [utils.validate_string] *)
Definition validate_string (s : str) : bool :=
  match s with
  | [] => false
  | _ :: _ => true
  end.

(** [fuzz.WRatio(p1, p2, full_process=False)] *)
Definition WRatio (p1 p2 : str) : Z :=
  if negb (validate_string p1) then 0
  else if negb (validate_string p2) then 0
  else weighted L p1 p2.

(** [process.extractWithoutOrder(query, choices)] for a list of choices,
    with the default processor, scorer and [score_cutoff=0]: the query is
    processed by the processor and then by the scorer's pre-processor, a
    choice by the pre-processor alone. *)
Definition score_cutoff : Z := 0.

Definition processed_query (query : str) : str :=
  full_process_ascii (PStr (full_process query)).

(** [scorer(processed_query, processed)] for one choice *)
Definition score (query : str) (choice : value) : Z :=
  WRatio (processed_query query) (full_process_ascii choice).

Definition extractWithoutOrder (query : str) (choices : list value)
  : list (value * Z) :=
  filter (fun cs => score_cutoff <=? snd cs)
         (map (fun choice => (choice, score query choice)) choices).

(** [max(best_list, key=lambda i: i[1])]: the first of the largest. *)
Definition max_by_score (x : value * Z) (rest : list (value * Z)) : value * Z :=
  fold_left (fun best y => if snd best <? snd y then y else best) rest x.

(** [process.extractOne(query, choices)]: [None] when nothing is yielded. *)
Definition extractOne (query : str) (choices : list value) : option (value * Z) :=
  match extractWithoutOrder query choices with
  | [] => None
  | x :: rest => Some (max_by_score x rest)
  end.

End Process.

End Fuzzy.

(** ** The catalog: the table read from the CSV file *)

Module Catalog.
Import Py.

(** A row of the file: the columns the program reads. A cell that is empty
    in the file is [PNaN]. The column [English_name] may be absent from the
    file; [csv_English_name] is then not read. *)
Record csv_row := {
  csv_Name : value;
  csv_English_name : value;
  csv_Path : value
}.

Record csv := {
  has_English_name : bool;
  csv_rows : list csv_row
}.

(** A row of [df] once [Display_Name] is added. *)
Record row := {
  Display_Name : value;
  Path : value
}.

(** [a.fillna(b)] on one cell *)
Definition fillna (a b : value) : value :=
  match a with
  | PNaN => b
  | PStr _ => a
  end.

(** [df["Display_Name"] = df["Name"].fillna(df.get("English_name", ""))] *)
Definition display_name (f : csv) (r : csv_row) : value :=
  fillna (csv_Name r)
         (if has_English_name f then csv_English_name r else PStr []).

Definition df (f : csv) : list row :=
  map (fun r => {| Display_Name := display_name f r; Path := csv_Path r |})
      (csv_rows f).

Definition notna (v : value) : bool :=
  match v with
  | PNaN => false
  | PStr _ => true
  end.

(** [s.dropna().tolist()] *)
Definition dropna (col : list value) : list value := filter notna col.

(** [df[df["Display_Name"] == name]] *)
Definition rows_named (d : list row) (name : value) : list row :=
  filter (fun r => py_eq (Display_Name r) name) d.

End Catalog.

(** ** [siraj_pipeline.py]: resolver, route lookup and the loop *)

Module Assistant.
Import Py Extractor Fuzzy Catalog.

Section Assistant.
Variable L : library.
Variable d : list row.

(** [best, score = process.extractOne(query, names)] raises [TypeError]
    when [extractOne] returns [None]; the score returned is [score or 0]. *)
Definition find_best_match (query : str) : result (value * Z) :=
  let names := dropna (map Display_Name d) in
  match extractOne L query names with
  | None => Raise TypeError
  | Some (best, score) => Ok (best, if score =? 0 then 0 else score)
  end.

(** The empty string when no row has the display name, else
    [row.iloc[0]["Path"]]. *)
Definition get_path (name : value) : value :=
  match rows_named d name with
  | [] => PStr []
  | r :: _ => Path r
  end.

(** What one turn of the loop does to the outside: what it has spoken, and
    the route lookups it has made. *)
Inductive event :=
| Spoke (text : str)
| LookedUp (name : value).

(** A step of [main]: the events so far, and a value or an exception. *)
Definition M (A : Type) : Type := list event -> list event * result A.

Definition ret {A} (a : A) : M A := fun t => (t, Ok a).

Definition mbind {A B} (m : M A) (f : A -> M B) : M B :=
  fun t =>
    match m t with
    | (t', Ok a) => f a t'
    | (t', Raise e) => (t', Raise e)
    end.

Definition lift {A} (r : result A) : M A := fun t => (t, r).

Definition emit (e : event) : M unit := fun t => (t ++ [e], Ok tt).

Notation "x <- m ;; k" := (mbind m (fun x => k))
  (at level 61, m at next level, right associativity).
Notation "m ;;; k" := (mbind m (fun _ => k))
  (at level 61, right associativity).

(** [azure_speak]: nothing is spoken for an empty text. *)
Definition azure_speak (text : str) : M unit :=
  match text with
  | [] => ret tt
  | _ :: _ => emit (Spoke text)
  end.

Definition WAKE_WORD : str := utf8 "سراج".
Definition ask_question : str := utf8 "تفضل، ما سؤالك؟".
Definition not_understood : str :=
  utf8 "عذراً، لم أتعرف على اسم المطعم. حاول مرة أخرى.".
Definition no_directions : str :=
  utf8 "للأسف لا توجد توجيهات متوفرة لهذه الوجهة.".

(** [f"أقرب مسار لمطعم {best} هو: {path}"] *)
Definition route_message (best path : value) : str :=
  utf8 "أقرب مسار لمطعم " ++ to_str best ++ utf8 " هو: " ++ to_str path.

Definition threshold : Z := 60.

(** One turn of the [while True] loop of [main]; [text] and [question] are
    what the two calls of [azure_transcribe] return. *)
Definition turn (text question : str) : M unit :=
  if contains WAKE_WORD text then
    azure_speak ask_question ;;;
    dest_raw <- lift (extract_destination question) ;;
    bs <- lift (find_best_match dest_raw) ;;
    let '(best, score) := bs in
    if score <? threshold then
      azure_speak not_understood
    else
      emit (LookedUp best) ;;;
      let path := get_path best in
      if negb (truthy path) then azure_speak no_directions
      else azure_speak (route_message best path)
  else ret tt.

End Assistant.

End Assistant.

(** ** [siraj_super_version.py]: the route lookup of the flow handler *)

Module Flow.
Import Py Fuzzy Catalog.

Section Flow.
Variable L : library.
Variable d : list row.

(** The exact hit first; else the fuzzy match over every display name,
    missing ones included, whose route [iloc[0]] reads when the score is 60
    or more ([IndexError] when no row is equal to the best match). *)
Definition lookup_route (restaurant_name : str) : result value :=
  match rows_named d (PStr restaurant_name) with
  | r :: _ => Ok (Path r)
  | [] =>
      let names := map Display_Name d in
      match extractOne L restaurant_name names with
      | None => Raise TypeError
      | Some (best, score) =>
          if 60 <=? score then
            match rows_named d best with
            | r :: _ => Ok (Path r)
            | [] => Raise IndexError
            end
          else Ok (PStr [])
      end
  end.

End Flow.

End Flow.

(** ** The extractor in the words of the specification *)

Module Spec.
Import Py Extractor.

Fixpoint take_while (p : Z -> bool) (s : str) : str :=
  match s with
  | c :: s' => if p c then c :: take_while p s' else []
  | [] => []
  end.

Fixpoint drop_while (p : Z -> bool) (s : str) : str :=
  match s with
  | c :: s' => if p c then drop_while p s' else s
  | [] => []
  end.

(** The run of name characters (Arabic block or white space, the set of the
    pattern) that follows the marker [mk] at the head of [s]: [None] when
    [s] does not start with [mk] or no such character follows it. *)
Definition run_after (mk s : str) : option str :=
  if startswith mk s
  then match take_while name_char (skipn (List.length mk) s) with
       | [] => None
       | run => Some run
       end
  else None.

Fixpoint first_some {A B} (f : A -> option B) (l : list A) : option B :=
  match l with
  | [] => None
  | a :: l' =>
      match f a with
      | Some b => Some b
      | None => first_some f l'
      end
  end.

(** The run that follows the first marker followed by name characters:
    positions from the left, and at one position the markers in the order
    the pattern lists them. *)
Fixpoint first_marker_run (s : str) : option str :=
  match first_some (fun mk => run_after mk s) markers with
  | Some run => Some run
  | None =>
      match s with
      | [] => None
      | _ :: s' => first_marker_run s'
      end
  end.

(** What the pattern does after a marker, [\s*([...]+)], in two steps: the
    group at the head of a string, and the group after leading blanks. *)
Definition name_group (s : str) : option Re.match_obj :=
  match take_while name_char s with
  | [] => None
  | run => Some (Some run)
  end.

Definition after_marker (s : str) : option Re.match_obj :=
  Re.greedy isspace s name_group.

Definition try_marker (s mk : str) : option Re.match_obj :=
  if startswith mk s then after_marker (skipn (List.length mk) s) else None.

End Spec.

(** ** Closed instances for the examples *)

Module Sample.
Import Py Fuzzy Catalog.

(** An instance of the library's outside: the Arabic letters and digits
    U+0620..U+064A and U+0660..U+0669 are alphanumeric and have no case;
    equal strings have ratio 100, and the ratio of two different strings,
    which no example below depends on, is put at 0. *)
Definition sample_library : library := {|
  uni_isalnum := fun c =>
    ((0x620 <=? c) && (c <=? 0x64A)) || ((0x660 <=? c) && (c <=? 0x669));
  uni_lower := fun s => s;
  weighted := fun a b => if str_eqb a b then 100 else 0
|}.

(** The catalog of the specification's end-to-end scenario. *)
Definition diwan_file : csv := {|
  has_English_name := false;
  csv_rows := [ {| csv_Name := PStr (utf8 "مطعم الديوان");
                   csv_English_name := PNaN;
                   csv_Path := PStr (utf8 "يسار ثم يمين") |} ]
|}.

(** The same restaurant with an empty route cell. *)
Definition diwan_no_route_file : csv := {|
  has_English_name := false;
  csv_rows := [ {| csv_Name := PStr (utf8 "مطعم الديوان");
                   csv_English_name := PNaN;
                   csv_Path := PNaN |} ]
|}.

(** A file without the column [English_name] and one row with no name. *)
Definition nameless_file : csv := {|
  has_English_name := false;
  csv_rows := [ {| csv_Name := PNaN;
                   csv_English_name := PNaN;
                   csv_Path := PStr (utf8 "يسار ثم يمين") |} ]
|}.

(** A file with the column [English_name] and one row with neither name. *)
Definition unnamed_file : csv := {|
  has_English_name := true;
  csv_rows := [ {| csv_Name := PNaN;
                   csv_English_name := PNaN;
                   csv_Path := PStr (utf8 "يسار ثم يمين") |} ]
|}.

(** A file with a header and no row. *)
Definition empty_file : csv := {|
  has_English_name := true;
  csv_rows := []
|}.


End Sample.

(** ** [siraj_super_version.py]: the handler of the flow's function *)

Module Handler.
Import Py Fuzzy Catalog Assistant Flow.

(** The arguments of a function call: a dict from argument names to the
    strings the schema of [get_route] declares, as an association list. *)
Definition FlowArgs := list (str * str).

Fixpoint dict_get (key : str) (args : FlowArgs) : option str :=
  match args with
  | [] => None
  | (k, v) :: rest => if str_eqb k key then Some v else dict_get key rest
  end.

(** What a call of the handler ends in: the [output] of its [FlowResult],
    an exception of the lookup, or the [KeyError] of [args["restaurant"]]. *)
Inductive outcome :=
| Output (text : str)
| Raised (e : exn)
| KeyError (key : str).

(** The f-string of the answer when no route is found. *)
Definition not_found_message (name : str) : str :=
  utf8 "عذراً، لا أجد توجيهات لمطعم “" ++ name ++ utf8 "”.".

(** [get_route_handler]: the name under ["restaurant"], its route by
    [lookup_route], and the answer by [if not path]. *)
Definition get_route_handler (L : library) (d : list row) (args : FlowArgs)
  : outcome :=
  match dict_get (utf8 "restaurant") args with
  | None => KeyError (utf8 "restaurant")
  | Some name =>
      match lookup_route L d name with
      | Raise e => Raised e
      | Ok path =>
          if negb (truthy path) then Output (not_found_message name)
          else Output (route_message (PStr name) path)
      end
  end.

End Handler.

(** ** Texts inside texts *)

Module Text.
Import Py.

(** [a] is a run of consecutive characters of [s]. *)
Definition substring (a s : str) : Prop := exists p q, s = p ++ a ++ q.

End Text.

(** ** [siraj_pipeline.py]: the transcription and the loop of [main] *)

Module Loop.
Import Py Fuzzy Catalog Assistant.

(** The result of one recognition: its reason, [RecognizedSpeech] or any
    other, and its text. *)
Inductive ResultReason :=
| RecognizedSpeech
| OtherReason.

Record recognition := {
  result_reason : ResultReason;
  result_text : str
}.

(** [azure_transcribe]: the text when speech was recognised, else the
    empty string. *)
Definition azure_transcribe (r : recognition) : str :=
  match result_reason r with
  | RecognizedSpeech => result_text r
  | OtherReason => []
  end.

(** What [main] speaks before it listens. *)
Definition greeting : str := utf8 "سراجْ جاهز للاستماع، قل «سرااجْ» عندما تريد السؤال عن مطعم.".

Section Loop.
Variable L : library.
Variable d : list row.

(** The [while True] loop of [main] over the recordings it is given, one
    recognition for each call of [azure_transcribe]: a recording is taken
    for the wake word, and after the wake word one more for the question.
    The loop ends with the recordings, or with the exception of a turn. *)
Fixpoint listen (recordings : list recognition) : M unit :=
  match recordings with
  | [] => ret tt
  | r :: rest =>
      if contains WAKE_WORD (azure_transcribe r)
      then
        match rest with
        | [] => azure_speak ask_question
        | r2 :: rest' =>
            mbind (turn L d (azure_transcribe r) (azure_transcribe r2))
                  (fun _ => listen rest')
        end
      else listen rest
  end.

(** [main]: the greeting, then the loop. *)
Definition main (recordings : list recognition) : M unit :=
  mbind (azure_speak greeting) (fun _ => listen recordings).

End Loop.

End Loop.

Import Py Re Extractor Fuzzy Catalog Assistant Flow Spec Sample.
Import Handler Text.
Import Loop.

(** * Properties *)

(** ** Strings *)

Lemma startswith_app (p s : str) : startswith p (p ++ s) = true.
Proof.
  induction p as [|a p IH]; simpl; [reflexivity|].
  now rewrite Z.eqb_refl, IH.
Qed.

Lemma lstrip_all_space (s : str) : forallb isspace s = true -> lstrip s = [].
Proof.
  induction s as [|c s IH]; simpl; [reflexivity|].
  intros H. apply andb_prop in H as [Hc Hs]. now rewrite Hc, IH.
Qed.

Lemma strip_all_space (s : str) : forallb isspace s = true -> strip s = [].
Proof.
  intros H. unfold strip. now rewrite (lstrip_all_space s H).
Qed.

Lemma strip_cons_space (c : Z) (s : str) :
  isspace c = true -> strip (c :: s) = strip s.
Proof. intros H. unfold strip. simpl. now rewrite H. Qed.


(** ** The matcher on the program's pattern *)

(** A repetition whose continuation cannot fail takes all it can. *)
Lemma greedy_total {A} (p : Z -> bool) (k : str -> A) (s : str) :
  greedy p s (fun s' => Some (k s')) = Some (k (drop_while p s)).
Proof.
  induction s as [|c s IH]; simpl; [reflexivity|].
  destruct (p c); [now rewrite IH|reflexivity].
Qed.

Lemma drop_while_length (p : Z -> bool) (s : str) :
  (List.length (drop_while p s) <= List.length s)%nat.
Proof.
  induction s as [|x s IH]; simpl; [lia|]. destruct (p x); simpl; lia.
Qed.

Lemma take_drop_length (p : Z -> bool) (s : str) :
  firstn (List.length s - List.length (drop_while p s)) s = take_while p s.
Proof.
  induction s as [|c s IH]; [reflexivity|].
  cbn [drop_while take_while]. destruct (p c) eqn:Hc.
  - cbn [List.length].
    rewrite Nat.sub_succ_l by apply drop_while_length.
    change (firstn (S ?n) (c :: s)) with (c :: firstn n s).
    now rewrite IH.
  - now rewrite Nat.sub_diag.
Qed.

Lemma rmatch_group (s : str) :
  rmatch (Group (Plus name_char)) s None (fun _ g => Some g) = name_group s.
Proof.
  unfold name_group. destruct s as [|c s]; [reflexivity|].
  cbn [rmatch take_while]. destruct (name_char c) eqn:Hc; [|reflexivity].
  rewrite (greedy_total name_char
             (fun s'' => Some (firstn (List.length (c :: s) - List.length s'') (c :: s)))).
  pose proof (take_drop_length name_char (c :: s)) as H.
  cbn [drop_while take_while] in H. rewrite Hc in H. now rewrite H.
Qed.

Lemma rmatch_after_marker (s : str) :
  rmatch (Cat (Star isspace) (Group (Plus name_char))) s None (fun _ g => Some g)
  = after_marker s.
Proof.
  unfold after_marker. cbn [rmatch].
  assert (E : forall t, greedy isspace t
                (fun s' => rmatch (Group (Plus name_char)) s' None (fun _ g => Some g))
              = greedy isspace t name_group).
  { induction t as [|c t IH]; cbn [greedy].
    - apply rmatch_group.
    - rewrite IH, rmatch_group. reflexivity. }
  apply E.
Qed.

(** After a marker the pattern succeeds exactly when a name character
    follows, and its group is then, up to [strip], the whole run. *)
Lemma after_marker_run (s : str) :
  match take_while name_char s with
  | [] => after_marker s = None
  | run => exists g, after_marker s = Some (Some g) /\ strip g = strip run
  end.
Proof.
  unfold after_marker.
  induction s as [|c s IH]; [reflexivity|].
  cbn [greedy take_while]. destruct (isspace c) eqn:Hsp.
  - assert (Hn : name_char c = true) by (unfold name_char; now rewrite Hsp, orb_true_r).
    rewrite Hn. destruct (take_while name_char s) as [|x run] eqn:Hrun.
    + rewrite IH. unfold name_group. cbn [take_while]. rewrite Hn, Hrun.
      now exists [c].
    + destruct IH as [g [Hg Hs]]. rewrite Hg. exists g. split; [reflexivity|].
      now rewrite strip_cons_space.
  - unfold name_group. cbn [take_while].
    destruct (name_char c); [|reflexivity].
    now exists (c :: take_while name_char s).
Qed.

(** The pattern at one position: the markers are tried in their order. *)
Lemma match_here_markers (s : str) :
  match_here destination_pattern s = first_some (try_marker s) markers.
Proof.
  unfold match_here, destination_pattern, markers, try_marker.
  set (tl := Cat (Star isspace) (Group (Plus name_char))).
  assert (Htl : forall t, rmatch tl t None (fun _ g => Some g) = after_marker t)
    by apply rmatch_after_marker.
  cbn [rmatch first_some List.length skipn].
  destruct s as [|c s]; [reflexivity|].
  cbn [startswith].
  destruct (Z.eqb_spec ALEF_HAMZA_BELOW c) as [<-|Hc].
  - rewrite Z.eqb_refl. cbn [andb].
    replace (LAM =? ALEF_HAMZA_BELOW) with false by reflexivity.
    replace (ALEF_HAMZA_BELOW =? LAM) with false by reflexivity.
    cbn [andb]. destruct s as [|c1 s]; [reflexivity|].
    cbn [startswith rmatch].
    rewrite (Z.eqb_sym LAM c1). destruct (c1 =? LAM); cbn [andb]; [|reflexivity].
    destruct s as [|c2 s]; [reflexivity|].
    cbn [startswith]. rewrite (Z.eqb_sym ALEF_MAKSURA c2).
    destruct (c2 =? ALEF_MAKSURA); cbn [andb].
    + rewrite Htl. now destruct (after_marker s).
    + reflexivity.
  - replace (c =? ALEF_HAMZA_BELOW) with false
      by (symmetry; apply Z.eqb_neq; congruence).
    cbn [andb]. rewrite (Z.eqb_sym LAM c). destruct (c =? LAM); cbn [andb].
    + destruct s as [|c1 s].
      * cbn [startswith]. rewrite Htl. reflexivity.
      * cbn [startswith]. rewrite (Z.eqb_sym TATWEEL c1).
        destruct (c1 =? TATWEEL); cbn [andb].
        -- rewrite !Htl.
           destruct (after_marker s); [reflexivity|].
           now destruct (after_marker (c1 :: s)).
        -- rewrite Htl. now destruct (after_marker (c1 :: s)).
    + reflexivity.
Qed.

Lemma try_marker_run (s mk : str) :
  match run_after mk s with
  | Some run => exists g, try_marker s mk = Some (Some g) /\ strip g = strip run
  | None => try_marker s mk = None
  end.
Proof.
  unfold run_after, try_marker. destruct (startswith mk s); [|reflexivity].
  pose proof (after_marker_run (skipn (List.length mk) s)) as H.
  destruct (take_while name_char (skipn (List.length mk) s)); exact H.
Qed.

Lemma first_some_markers (s : str) (l : list str) :
  match first_some (fun mk => run_after mk s) l with
  | Some run =>
      exists g, first_some (try_marker s) l = Some (Some g) /\ strip g = strip run
  | None => first_some (try_marker s) l = None
  end.
Proof.
  induction l as [|mk l IH]; [reflexivity|].
  cbn [first_some]. pose proof (try_marker_run s mk) as H.
  destruct (run_after mk s) as [run|].
  - destruct H as [g [Hg Hs]]. rewrite Hg. now exists g.
  - rewrite H. exact IH.
Qed.

(** [re.search] with the program's pattern finds the run that follows the
    first marker followed by name characters; its group is the run up to
    [strip]. *)
Lemma search_first_marker_run (s : str) :
  match first_marker_run s with
  | Some run =>
      exists g, search destination_pattern s = Some (Some g) /\ strip g = strip run
  | None => search destination_pattern s = None
  end.
Proof.
  induction s as [|c s IH]; cbn [search first_marker_run];
    rewrite match_here_markers.
  - pose proof (first_some_markers [] markers) as H.
    destruct (first_some (fun mk => run_after mk []) markers) as [run|].
    + destruct H as [g [Hg Hs]]. rewrite Hg. now exists g.
    + now rewrite H.
  - pose proof (first_some_markers (c :: s) markers) as H.
    destruct (first_some (fun mk => run_after mk (c :: s)) markers) as [run|].
    + destruct H as [g [Hg Hs]]. rewrite Hg. now exists g.
    + rewrite H. exact IH.
Qed.

Lemma extract_destination_spec (text : str) :
  extract_destination text
  = Ok (strip (match first_marker_run text with
               | Some run => run
               | None => text
               end)).
Proof.
  unfold extract_destination. pose proof (search_first_marker_run text) as H.
  destruct (first_marker_run text) as [run|].
  - destruct H as [g [Hg Hs]]. now rewrite Hg, Hs.
  - now rewrite H.
Qed.

Lemma contains_lam (s : str) : contains [LAM] s = existsb (Z.eqb LAM) s.
Proof.
  induction s as [|c s IH]; [reflexivity|].
  cbn [contains startswith existsb]. rewrite IH.
  now destruct (LAM =? c), s.
Qed.

Lemma marker_has_lam (mk s : str) :
  In mk markers -> startswith mk s = true -> contains [LAM] s = true.
Proof.
  rewrite contains_lam. unfold markers.
  intros [<-|[<-|[<-|[]]]] H.
  - destruct s as [|c0 [|c1 s]]; cbn [startswith] in H; try discriminate;
      try (rewrite andb_false_r in H; discriminate).
    apply andb_prop in H as [_ H]. apply andb_prop in H as [H _].
    cbn [existsb]. rewrite H. now rewrite orb_true_r.
  - destruct s as [|c0 s]; cbn [startswith] in H; [discriminate|].
    apply andb_prop in H as [H _]. cbn [existsb]. now rewrite H.
  - destruct s as [|c0 s]; cbn [startswith] in H; [discriminate|].
    apply andb_prop in H as [H _]. cbn [existsb]. now rewrite H.
Qed.

Lemma no_lam_no_run (s : str) :
  contains [LAM] s = false -> first_marker_run s = None.
Proof.
  assert (Hrun : forall t mk, In mk markers -> contains [LAM] t = false ->
                              run_after mk t = None).
  { intros t mk Hmk Ht. unfold run_after.
    destruct (startswith mk t) eqn:Hs; [|reflexivity].
    rewrite (marker_has_lam mk t Hmk Hs) in Ht. discriminate. }
  assert (Hfirst : forall t, contains [LAM] t = false ->
                             first_some (fun mk => run_after mk t) markers = None).
  { intros t Ht. unfold markers. cbn [first_some].
    rewrite !(Hrun t) by (assumption || (unfold markers; simpl; tauto)).
    reflexivity. }
  induction s as [|c s IH]; intros H; cbn [first_marker_run]; rewrite (Hfirst _ H).
  - reflexivity.
  - apply IH. rewrite contains_lam in *. cbn [existsb] in H.
    now apply orb_false_elim in H as [_ H].
Qed.

Lemma run_after_app (mk post : str) :
  run_after mk (mk ++ post)
  = match take_while name_char post with
    | [] => None
    | run => Some run
    end.
Proof.
  unfold run_after. rewrite startswith_app.
  replace (skipn (List.length mk) (mk ++ post)) with post; [reflexivity|].
  induction mk as [|a mk IH]; [reflexivity|exact IH].
Qed.

(** No match starts before the first [LAM], unless the marker of three
    letters straddles the cut. *)
Lemma first_marker_run_skip (pre s : str) :
  contains [LAM] pre = false ->
  startswith [LAM; ALEF_MAKSURA] s = false ->
  first_marker_run (pre ++ s) = first_marker_run s.
Proof.
  intros Hpre Hs. induction pre as [|c pre IH]; [reflexivity|].
  rewrite contains_lam in Hpre. cbn [existsb] in Hpre.
  apply orb_false_elim in Hpre as [Hc Hpre]. rewrite <- contains_lam in Hpre.
  change ((c :: pre) ++ s) with (c :: (pre ++ s)).
  cbn [first_marker_run]. rewrite (IH Hpre).
  assert (E : first_some (fun mk => run_after mk (c :: pre ++ s)) markers = None);
    [|now rewrite E].
  unfold markers, run_after. cbn [first_some startswith]. rewrite Hc. cbn [andb].
  destruct (ALEF_HAMZA_BELOW =? c); cbn [andb]; [|reflexivity].
  destruct pre as [|c1 pre].
  - cbn [app]. cbn [startswith] in Hs. now rewrite Hs.
  - rewrite contains_lam in Hpre. cbn [existsb] in Hpre.
    apply orb_false_elim in Hpre as [Hc1 _].
    cbn [app startswith]. now rewrite Hc1.
Qed.

(** The first marker of an utterance, when name characters follow it. *)
Lemma first_marker_run_at (pre mk post : str) :
  contains [LAM] pre = false ->
  In mk markers ->
  (mk = [LAM] ->
   startswith [TATWEEL] post = false /\ startswith [ALEF_MAKSURA] post = false) ->
  take_while name_char post <> [] ->
  first_marker_run (pre ++ mk ++ post) = Some (take_while name_char post).
Proof.
  intros Hpre Hmk Hlam Hrun.
  assert (Hat : first_some (fun m => run_after m (mk ++ post)) markers
                = Some (take_while name_char post)).
  { pose proof (run_after_app mk post) as Happ.
    destruct (take_while name_char post) as [|x run] eqn:Ht; [congruence|].
    unfold markers in *. destruct Hmk as [<-|[<-|[<-|[]]]].
    - cbn [first_some]. now rewrite Happ.
    - cbn [first_some]. rewrite Happ.
      now replace (run_after [ALEF_HAMZA_BELOW; LAM; ALEF_MAKSURA]
                     ([LAM; TATWEEL] ++ post)) with (@None str) by reflexivity.
    - destruct (Hlam eq_refl) as [Htw _].
      cbn [first_some]. rewrite Happ.
      replace (run_after [ALEF_HAMZA_BELOW; LAM; ALEF_MAKSURA] ([LAM] ++ post))
        with (@None str) by reflexivity.
      assert (E : run_after [LAM; TATWEEL] ([LAM] ++ post) = None); [|now rewrite E].
      unfold run_after. cbn [app startswith]. rewrite Z.eqb_refl. cbn [andb].
      cbn [startswith] in Htw. now rewrite Htw. }
  rewrite first_marker_run_skip; [| exact Hpre |].
  - destruct (mk ++ post); cbn [first_marker_run]; now rewrite Hat.
  - unfold markers in Hmk. destruct Hmk as [<-|[<-|[<-|[]]]]; try reflexivity.
    destruct (Hlam eq_refl) as [_ Hmak].
    cbn [app startswith] in *. rewrite Z.eqb_refl. cbn [andb]. exact Hmak.
Qed.

(** ** The name extractor *)

(** The extractor at the first marker of an utterance: nothing before it
    holds a LAM, and a bare LAM is not the head of a longer marker. *)
Lemma extract_destination_at (pre mk post : str) :
  contains [LAM] pre = false ->
  In mk markers ->
  (mk = [LAM] ->
   startswith [TATWEEL] post = false /\ startswith [ALEF_MAKSURA] post = false) ->
  take_while name_char post <> [] ->
  extract_destination (pre ++ mk ++ post) = Ok (strip (take_while name_char post)).
Proof.
  intros Hpre Hmk Hlam Hrun. rewrite extract_destination_spec.
  now rewrite (first_marker_run_at pre mk post Hpre Hmk Hlam Hrun).
Qed.









(** ** The resolver *)

Lemma str_eqb_eq (a b : str) : str_eqb a b = true <-> a = b.
Proof.
  unfold str_eqb. destruct (list_eq_dec Z.eq_dec a b); split; congruence.
Qed.

Lemma py_eq_PStr (v : value) (s : str) : py_eq v (PStr s) = true <-> v = PStr s.
Proof.
  destruct v as [x|]; simpl.
  - rewrite str_eqb_eq. split; congruence.
  - split; discriminate.
Qed.

(** The first of the largest: every pair before the chosen one has a
    smaller score, every pair after it no larger one. *)
Lemma max_by_score_first (x : value * Z) (rest : list (value * Z)) :
  exists l1 l2,
    x :: rest = l1 ++ max_by_score x rest :: l2
    /\ (forall y, In y l1 -> snd y < snd (max_by_score x rest))
    /\ (forall y, In y l2 -> snd y <= snd (max_by_score x rest)).
Proof.
  unfold max_by_score.
  enough (G : forall l1 l2,
             (forall y, In y l1 -> snd y < snd x) ->
             (forall y, In y l2 -> snd y <= snd x) ->
             exists l1' l2',
               l1 ++ x :: l2 ++ rest
               = l1' ++ fold_left (fun best y => if snd best <? snd y then y else best)
                                  rest x :: l2'
               /\ (forall y, In y l1' ->
                             snd y < snd (fold_left (fun best y => if snd best <? snd y then y else best) rest x))
               /\ (forall y, In y l2' ->
                             snd y <= snd (fold_left (fun best y => if snd best <? snd y then y else best) rest x))).
  { apply (G [] []); intros y []. }
  revert x. induction rest as [|z rest IH]; intros x l1 l2 H1 H2.
  - exists l1, l2. rewrite app_nil_r. auto.
  - cbn [fold_left]. destruct (Z.ltb_spec (snd x) (snd z)) as [Hlt|Hge].
    + destruct (IH z (l1 ++ x :: l2) []) as [l1' [l2' [E HH]]].
      * intros y Hy. apply in_app_or in Hy as [Hy|[<-|Hy]].
        -- specialize (H1 y Hy). lia.
        -- exact Hlt.
        -- specialize (H2 y Hy). lia.
      * intros y [].
      * exists l1', l2'. split; [|exact HH].
        rewrite <- E. rewrite <- !app_assoc. reflexivity.
    + destruct (IH x l1 (l2 ++ [z])) as [l1' [l2' [E HH]]].
      * exact H1.
      * intros y Hy. apply in_app_or in Hy as [Hy|[<-|[]]]; [now apply H2|lia].
      * exists l1', l2'. split; [|exact HH].
        rewrite <- E. rewrite <- !app_assoc. reflexivity.
Qed.

Lemma max_by_score_in (x : value * Z) (rest : list (value * Z)) :
  In (max_by_score x rest) (x :: rest).
Proof.
  destruct (max_by_score_first x rest) as [l1 [l2 [E _]]].
  rewrite E. apply in_or_app. right. now left.
Qed.

Section Resolver.
Variable L : library.

(** The scores of the library lie between 0 and 100. *)
Hypothesis weighted_range : forall a b, 0 <= weighted L a b <= 100.

Lemma WRatio_range (a b : str) : 0 <= WRatio L a b <= 100.
Proof.
  unfold WRatio. destruct (validate_string a), (validate_string b); simpl;
    try lia. apply weighted_range.
Qed.

Lemma score_range (q : str) (c : value) : 0 <= score L q c <= 100.
Proof. apply WRatio_range. Qed.

(** With the cut-off at 0 every choice is yielded. *)
Lemma extractWithoutOrder_all (q : str) (choices : list value) :
  extractWithoutOrder L q choices = map (fun c => (c, score L q c)) choices.
Proof.
  unfold extractWithoutOrder. induction choices as [|c cs IH]; [reflexivity|].
  cbn [map filter snd]. unfold score_cutoff at 1.
  destruct (Z.leb_spec 0 (score L q c)) as [_|H].
  - now rewrite IH.
  - pose proof (score_range q c). lia.
Qed.

End Resolver.

(** C1: on a catalog with no display name the resolver does not return:
    [extractOne] gives [None], and unpacking it into [best, score] raises
    [TypeError] before [score or 0] is reached. *)
Theorem find_best_match_no_names (L : library) (d : list row) (query : str) :
  dropna (map Display_Name d) = [] ->
  find_best_match L d query = Raise TypeError.
Proof.
  intros H. unfold find_best_match, extractOne, extractWithoutOrder.
  now rewrite H.
Qed.

Lemma find_best_match_no_names_witness :
  find_best_match sample_library (df empty_file) (utf8 "مطعم الديوان")
  = Raise TypeError.
Proof.
  apply (find_best_match_no_names sample_library (df empty_file)).
  reflexivity.
Defined.

(** C3: on a catalog with at least one display name the resolver returns a
    score between 0 and 100 and a name that is one of the display names of
    the catalog. *)
Theorem find_best_match_in_catalog (L : library) (d : list row) (query : str) :
  (forall a b, 0 <= weighted L a b <= 100) ->
  dropna (map Display_Name d) <> [] ->
  exists best score,
    find_best_match L d query = Ok (best, score)
    /\ 0 <= score <= 100
    /\ In best (map Display_Name d).
Proof.
  intros Hrange Hne. unfold find_best_match, extractOne.
  rewrite (extractWithoutOrder_all L Hrange).
  destruct (dropna (map Display_Name d)) as [|c cs] eqn:Hnames; [congruence|].
  cbn [map].
  pose proof (max_by_score_in (c, score L query c)
                (map (fun c0 => (c0, score L query c0)) cs)) as Hin.
  destruct (max_by_score (c, score L query c)
              (map (fun c0 => (c0, score L query c0)) cs)) as [best sc].
  change ((c, score L query c) :: map (fun c0 => (c0, score L query c0)) cs)
    with (map (fun c0 => (c0, score L query c0)) (c :: cs)) in Hin.
  apply in_map_iff in Hin as [c0 [E Hc0]]. injection E as -> <-.
  pose proof (score_range L Hrange query best) as Hs.
  exists best, (score L query best). split; [|split].
  - destruct (Z.eqb_spec (score L query best) 0) as [->|_]; reflexivity.
  - exact Hs.
  - rewrite <- Hnames in Hc0. unfold dropna in Hc0.
    now apply filter_In in Hc0 as [Hc0 _].
Qed.

Lemma sample_weighted_range (a b : str) : 0 <= weighted sample_library a b <= 100.
Proof. simpl. destruct (str_eqb a b); lia. Qed.

Lemma sample_weighted_refl (a : str) : a <> [] -> weighted sample_library a a = 100.
Proof.
  intros _. simpl. now rewrite (proj2 (str_eqb_eq a a) eq_refl).
Qed.

Lemma find_best_match_in_catalog_witness :
  exists best score,
    find_best_match sample_library (df diwan_file) (utf8 "مطعم الديوان")
    = Ok (best, score)
    /\ 0 <= score <= 100
    /\ In best (map Display_Name (df diwan_file)).
Proof.
  apply (find_best_match_in_catalog sample_library (df diwan_file)).
  - exact sample_weighted_range.
  - discriminate.
Defined.

Example resolve_diwan :
  find_best_match sample_library (df diwan_file) (utf8 "مطعم الديوان")
  = Ok (PStr (utf8 "مطعم الديوان"), 100).
Proof. vm_compute. reflexivity. Qed.

(** The resolver's answer in full: the first display name, in the order of
    the catalog, whose score is the largest. *)
Lemma find_best_match_first_max (L : library) (d : list row) (query : str) :
  (forall a b, 0 <= weighted L a b <= 100) ->
  dropna (map Display_Name d) <> [] ->
  exists best before after,
    find_best_match L d query = Ok (best, score L query best)
    /\ dropna (map Display_Name d) = before ++ best :: after
    /\ (forall c, In c before -> score L query c < score L query best)
    /\ (forall c, In c after -> score L query c <= score L query best).
Proof.
  intros Hrange Hne. unfold find_best_match, extractOne.
  rewrite (extractWithoutOrder_all L Hrange).
  destruct (dropna (map Display_Name d)) as [|c cs] eqn:Hnames; [congruence|].
  cbn [map].
  destruct (max_by_score_first (c, score L query c)
              (map (fun c0 => (c0, score L query c0)) cs)) as [l1 [l2 [E [H1 H2]]]].
  change ((c, score L query c) :: map (fun c0 => (c0, score L query c0)) cs)
    with (map (fun c0 => (c0, score L query c0)) (c :: cs)) in E.
  apply map_eq_app in E as [before [tl [Eq [E1 E2]]]].
  apply map_eq_cons in E2 as [best [after [-> [Eb E2]]]].
  rewrite <- Eb in *. cbn [snd] in *.
  exists best, before, after. split; [|split; [exact Eq|split]].
  - destruct (Z.eqb_spec (score L query best) 0) as [->|_]; reflexivity.
  - intros c0 Hc0. apply (H1 (c0, score L query c0)).
    rewrite <- E1. now apply (in_map (fun c1 => (c1, score L query c1))).
  - intros c0 Hc0. apply (H2 (c0, score L query c0)).
    rewrite <- E2. now apply (in_map (fun c1 => (c1, score L query c1))).
Qed.

(** C4, as amended: for a query equal to a display name whose processed
    form is not empty and is the same whether the name is processed once (as
    a choice) or twice (as the query), the resolver returns the score 100
    with the first display name of the catalog that scores 100; that is the
    query's own name unless a name before it scores 100 too. *)
Theorem find_best_match_exact_name (L : library) (d : list row) (q : str) :
  (forall a b, 0 <= weighted L a b <= 100) ->
  (forall a, a <> [] -> weighted L a a = 100) ->
  In (PStr q) (map Display_Name d) ->
  full_process_ascii L (PStr q) <> [] ->
  processed_query L q = full_process_ascii L (PStr q) ->
  exists best before after,
    find_best_match L d q = Ok (best, 100)
    /\ dropna (map Display_Name d) = before ++ best :: after
    /\ score L q best = 100
    /\ (forall c, In c before -> score L q c < 100)
    /\ (best = PStr q \/ In (PStr q) after).
Proof.
  intros Hrange Hrefl Hin Hne Hstable.
  assert (Hq : In (PStr q) (dropna (map Display_Name d))).
  { unfold dropna. apply filter_In. now split. }
  assert (Hsq : score L q (PStr q) = 100).
  { unfold score, WRatio. rewrite Hstable.
    destruct (full_process_ascii L (PStr q)) as [|x p] eqn:Hp; [congruence|].
    cbn [validate_string negb]. apply Hrefl. discriminate. }
  destruct (find_best_match_first_max L d q Hrange) as
    [best [before [after [Hfind [Hsplit [Hbefore Hafter]]]]]].
  { intros E. rewrite E in Hq. contradiction. }
  pose proof (score_range L Hrange q best) as Hb.
  assert (Hbest : score L q best = 100).
  { rewrite Hsplit in Hq. apply in_app_or in Hq as [Hq|[Hq|Hq]].
    - specialize (Hbefore _ Hq). lia.
    - now rewrite Hq.
    - specialize (Hafter _ Hq). lia. }
  exists best, before, after. rewrite Hbest in *.
  split; [exact Hfind|split; [exact Hsplit|split; [reflexivity|split]]].
  - exact Hbefore.
  - rewrite Hsplit in Hq. apply in_app_or in Hq as [Hq|[Hq|Hq]].
    + specialize (Hbefore _ Hq). lia.
    + now left.
    + now right.
Qed.

Lemma find_best_match_exact_name_witness :
  exists best before after,
    find_best_match sample_library (df diwan_file) (utf8 "مطعم الديوان")
    = Ok (best, 100)
    /\ dropna (map Display_Name (df diwan_file)) = before ++ best :: after
    /\ score sample_library (utf8 "مطعم الديوان") best = 100
    /\ (forall c, In c before -> score sample_library (utf8 "مطعم الديوان") c < 100)
    /\ (best = PStr (utf8 "مطعم الديوان") \/ In (PStr (utf8 "مطعم الديوان")) after).
Proof.
  apply (find_best_match_exact_name sample_library (df diwan_file)).
  - exact sample_weighted_range.
  - exact sample_weighted_refl.
  - left. reflexivity.
  - discriminate.
  - reflexivity.
Defined.

(** C4, as stated, fails for the empty display name: the query is equal to
    it, and its score is 0 whatever the library computes for strings that
    are not empty. *)
Lemma find_best_match_empty_name :
  In (PStr []) (map Display_Name (df nameless_file))
  /\ forall L, find_best_match L (df nameless_file) [] = Ok (PStr [], 0).
Proof.
  split; [left; reflexivity|]. intros [ia lo w]. reflexivity.
Qed.

(** It fails as well when a name placed before the query's own has the
    same processed form: the first of the two is returned. *)
Example find_best_match_tie :
  forall L path1 path2,
    (forall a, a <> [] -> weighted L a a = 100) ->
    find_best_match L
      [ {| Display_Name := PStr (utf8 "Al Diwan"); Path := path1 |};
        {| Display_Name := PStr (utf8 "al diwan"); Path := path2 |} ]
      (utf8 "al diwan")
    = Ok (PStr (utf8 "Al Diwan"), 100).
Proof.
  intros [ia lo w] path1 path2 H. cbn [weighted] in H.
  unfold find_best_match, extractOne, extractWithoutOrder, score, WRatio.
  cbn [map Display_Name dropna filter notna].
  change (processed_query {| uni_isalnum := ia; uni_lower := lo; weighted := w |}
            (utf8 "al diwan")) with (utf8 "al diwan").
  change (full_process_ascii {| uni_isalnum := ia; uni_lower := lo; weighted := w |}
            (PStr (utf8 "Al Diwan"))) with (utf8 "al diwan").
  change (full_process_ascii {| uni_isalnum := ia; uni_lower := lo; weighted := w |}
            (PStr (utf8 "al diwan"))) with (utf8 "al diwan").
  cbn [weighted]. rewrite H by discriminate. reflexivity.
Qed.

(** The two processed forms of one name can differ: a character of
    128..255 that is no letter or digit, here the multiplication sign,
    becomes a blank in the query and is deleted from the choice. *)
Example processed_twice_differs :
  forall L,
    uni_isalnum L 0xD7 = false ->
    processed_query L (utf8 "a×b") = utf8 "a b"
    /\ full_process_ascii L (PStr (utf8 "a×b")) = utf8 "ab".
Proof.
  intros [ia lo w] H. cbn [uni_isalnum] in H. split; [|reflexivity].
  unfold processed_query, full_process, process_str.
  change (utf8 "a×b") with [97; 0xD7; 98]. cbn [map].
  unfold is_word at 1 2 3, isalnum. cbn [uni_isalnum].
  replace (0xD7 <? 128) with false by reflexivity. rewrite H.
  reflexivity.
Qed.

(** ** The catalog *)





(** ** Route lookup *)

Lemma rows_named_first (d l1 l2 : list row) (r : row) (name : str) :
  d = l1 ++ r :: l2 ->
  Display_Name r = PStr name ->
  (forall r', In r' l1 -> Display_Name r' <> PStr name) ->
  rows_named d (PStr name) = r :: rows_named l2 (PStr name).
Proof.
  intros -> Hr Hl1. unfold rows_named. rewrite filter_app. cbn [filter].
  rewrite (proj2 (py_eq_PStr (Display_Name r) name) Hr).
  replace (filter (fun r0 => py_eq (Display_Name r0) (PStr name)) l1) with (@nil row);
    [reflexivity|].
  symmetry. induction l1 as [|x l1 IH]; [reflexivity|].
  cbn [filter]. destruct (py_eq (Display_Name x) (PStr name)) eqn:E.
  - apply py_eq_PStr in E. exfalso. apply (Hl1 x); [now left|exact E].
  - apply IH. intros r' Hr'. apply Hl1. now right.
Qed.





(** ** The loop *)

Lemma azure_speak_nonempty (text : str) (t : list event) :
  text <> [] -> azure_speak text t = (t ++ [Spoke text], Ok tt).
Proof. destruct text; [congruence|reflexivity]. Qed.

Lemma ask_question_nonempty : ask_question <> [].
Proof. discriminate. Qed.

Lemma not_understood_nonempty : not_understood <> [].
Proof. discriminate. Qed.

Lemma route_message_nonempty (best path : value) : route_message best path <> [].
Proof. discriminate. Qed.

(** A turn up to the resolver's answer. *)
Lemma turn_resolved (L : library) (d : list row) (text question dest : str)
      (best : value) (score : Z) :
  contains WAKE_WORD text = true ->
  extract_destination question = Ok dest ->
  find_best_match L d dest = Ok (best, score) ->
  turn L d text question []
  = if score <? threshold
    then ([Spoke ask_question; Spoke not_understood], Ok tt)
    else
      if negb (truthy (get_path d best))
      then azure_speak no_directions [Spoke ask_question; LookedUp best]
      else ([Spoke ask_question; LookedUp best;
             Spoke (route_message best (get_path d best))], Ok tt).
Proof.
  intros Hwake Hdest Hbest. unfold turn. rewrite Hwake.
  unfold mbind, lift, emit.
  rewrite (azure_speak_nonempty _ _ ask_question_nonempty).
  rewrite Hdest, Hbest. cbn [app].
  destruct (score <? threshold).
  - now rewrite (azure_speak_nonempty _ _ not_understood_nonempty).
  - destruct (negb (truthy (get_path d best))); [reflexivity|].
    now rewrite (azure_speak_nonempty _ _ (route_message_nonempty _ _)).
Qed.

(** C9: in a turn where the resolver's score is below 60, the answer is
    the message that the name was not understood, and no route is looked
    up. *)
Theorem low_score_not_understood (L : library) (d : list row)
        (text question dest : str) (best : value) (score : Z) :
  contains WAKE_WORD text = true ->
  extract_destination question = Ok dest ->
  find_best_match L d dest = Ok (best, score) ->
  score < 60 ->
  turn L d text question [] = ([Spoke ask_question; Spoke not_understood], Ok tt)
  /\ forall name, ~ In (LookedUp name) (fst (turn L d text question [])).
Proof.
  intros Hwake Hdest Hbest Hlow.
  rewrite (turn_resolved L d text question dest best score Hwake Hdest Hbest).
  unfold threshold. destruct (Z.ltb_spec score 60); [|lia].
  split; [reflexivity|].
  intros name [E|[E|[]]]; discriminate.
Qed.

Lemma low_score_not_understood_witness :
  turn sample_library (df diwan_file) (utf8 "يا سراج") [] []
  = ([Spoke ask_question; Spoke not_understood], Ok tt)
  /\ forall name,
      ~ In (LookedUp name)
           (fst (turn sample_library (df diwan_file) (utf8 "يا سراج") [] [])).
Proof.
  apply (low_score_not_understood sample_library (df diwan_file)
           (utf8 "يا سراج") [] [] (PStr (utf8 "مطعم الديوان")) 0).
  - reflexivity.
  - reflexivity.
  - reflexivity.
  - lia.
Defined.

(** C10: when the first row named as the resolved name has a missing
    route cell, the lookup returns the missing-value marker; it is not the
    empty string and counts as true, so the turn does not say that there are
    no directions, and speaks the route message with the marker's text
    in the place of the route. *)
Theorem missing_route_is_spoken (L : library) (d : list row)
        (text question dest : str) (best : value) (score : Z)
        (r : row) (rest : list row) :
  contains WAKE_WORD text = true ->
  extract_destination question = Ok dest ->
  find_best_match L d dest = Ok (best, score) ->
  60 <= score ->
  rows_named d best = r :: rest ->
  Path r = PNaN ->
  get_path d best = PNaN
  /\ PNaN <> PStr []
  /\ truthy (get_path d best) = true
  /\ turn L d text question []
     = ([Spoke ask_question; LookedUp best; Spoke (route_message best PNaN)], Ok tt)
  /\ route_message best PNaN
     = utf8 "أقرب مسار لمطعم " ++ to_str best ++ utf8 " هو: " ++ utf8 "nan".
Proof.
  intros Hwake Hdest Hbest Hhigh Hrows Hpath.
  assert (Hget : get_path d best = PNaN).
  { unfold get_path. now rewrite Hrows. }
  rewrite (turn_resolved L d text question dest best score Hwake Hdest Hbest).
  rewrite Hget. unfold threshold. destruct (Z.ltb_spec score 60); [lia|].
  repeat split. discriminate.
Qed.

Lemma missing_route_is_spoken_witness :
  get_path (df diwan_no_route_file) (PStr (utf8 "مطعم الديوان")) = PNaN
  /\ PNaN <> PStr []
  /\ truthy (get_path (df diwan_no_route_file) (PStr (utf8 "مطعم الديوان"))) = true
  /\ turn sample_library (df diwan_no_route_file)
       (utf8 "سراج") (utf8 "خذني إلى مطعم الديوان") []
     = ([Spoke ask_question; LookedUp (PStr (utf8 "مطعم الديوان"));
         Spoke (route_message (PStr (utf8 "مطعم الديوان")) PNaN)], Ok tt)
  /\ route_message (PStr (utf8 "مطعم الديوان")) PNaN
     = utf8 "أقرب مسار لمطعم " ++ to_str (PStr (utf8 "مطعم الديوان"))
       ++ utf8 " هو: " ++ utf8 "nan".
Proof.
  apply (missing_route_is_spoken sample_library (df diwan_no_route_file)
           (utf8 "سراج") (utf8 "خذني إلى مطعم الديوان") (utf8 "مطعم الديوان")
           (PStr (utf8 "مطعم الديوان")) 100
           {| Display_Name := PStr (utf8 "مطعم الديوان"); Path := PNaN |} []).
  - reflexivity.
  - reflexivity.
  - vm_compute. reflexivity.
  - lia.
  - reflexivity.
  - reflexivity.
Defined.

(** The end-to-end scenario of the specification. *)
Example turn_diwan :
  turn sample_library (df diwan_file) (utf8 "سراج") (utf8 "خذني إلى مطعم الديوان") []
  = ([Spoke ask_question;
      LookedUp (PStr (utf8 "مطعم الديوان"));
      Spoke (utf8 "أقرب مسار لمطعم مطعم الديوان هو: يسار ثم يمين")], Ok tt).
Proof. vm_compute. reflexivity. Qed.

(** * Further properties of the code *)

(** ** Stripping *)

Lemma lstrip_split (s : str) :
  exists w, s = w ++ lstrip s /\ forallb isspace w = true.
Proof.
  induction s as [|c s [w [E Hw]]]; [now exists []|].
  cbn [lstrip]. destruct (isspace c) eqn:Hc.
  - exists (c :: w). cbn [app forallb]. rewrite Hc, Hw. now rewrite <- E.
  - now exists [].
Qed.

Lemma lstrip_head (s : str) :
  match lstrip s with
  | c :: _ => isspace c = false
  | [] => True
  end.
Proof.
  induction s as [|c s IH]; [exact I|].
  cbn [lstrip]. destruct (isspace c) eqn:Hc; [exact IH|exact Hc].
Qed.

Lemma lstrip_fixed (s : str) :
  match s with c :: _ => isspace c = false | [] => True end -> lstrip s = s.
Proof. destruct s as [|c s]; [reflexivity|]. cbn [lstrip]. now intros ->. Qed.

Lemma lstrip_idem (s : str) : lstrip (lstrip s) = lstrip s.
Proof. apply lstrip_fixed, lstrip_head. Qed.

Lemma rstrip_split (s : str) :
  exists w, s = rstrip s ++ w /\ forallb isspace w = true.
Proof.
  unfold rstrip. destruct (lstrip_split (rev s)) as [w [E Hw]].
  exists (rev w). split.
  - rewrite <- rev_app_distr, <- E. now rewrite rev_involutive.
  - rewrite forallb_forall in *. intros c Hc. apply Hw. now apply in_rev.
Qed.

Lemma rstrip_idem (s : str) : rstrip (rstrip s) = rstrip s.
Proof. unfold rstrip. now rewrite rev_involutive, lstrip_idem. Qed.

(** Stripping the right end keeps a left end that is already stripped. *)
Lemma lstrip_rstrip (s : str) : lstrip s = s -> lstrip (rstrip s) = rstrip s.
Proof.
  intros Hs. destruct (rstrip_split s) as [w [E _]].
  apply lstrip_fixed. destruct (rstrip s) as [|c r]; [exact I|].
  pose proof (lstrip_head s) as Hh. rewrite Hs, E in Hh. exact Hh.
Qed.

Lemma strip_stripped (s : str) :
  lstrip (strip s) = strip s /\ rstrip (strip s) = strip s.
Proof.
  unfold strip. split.
  - apply lstrip_rstrip, lstrip_idem.
  - apply rstrip_idem.
Qed.

Lemma substring_refl (s : str) : substring s s.
Proof. exists [], []. now rewrite app_nil_r. Qed.

Lemma substring_trans (a b c : str) : substring a b -> substring b c -> substring a c.
Proof.
  intros [p [q ->]] [p' [q' ->]]. exists (p' ++ p), (q ++ q').
  now rewrite <- !app_assoc.
Qed.

Lemma substring_cons (a s : str) (c : Z) : substring a s -> substring a (c :: s).
Proof. intros [p [q ->]]. now exists (c :: p), q. Qed.

Lemma strip_substring (s : str) : substring (strip s) s.
Proof.
  unfold strip. destruct (lstrip_split s) as [w [E _]].
  destruct (rstrip_split (lstrip s)) as [w' [E' _]].
  exists w, w'. rewrite <- E'. exact E.
Qed.

Lemma substring_forallb (p : Z -> bool) (a s : str) :
  substring a s -> forallb p s = true -> forallb p a = true.
Proof.
  intros [x [y ->]] H. rewrite !forallb_app in H.
  apply andb_prop in H as [_ H]. now apply andb_prop in H as [H _].
Qed.

Lemma take_while_split (p : Z -> bool) (s : str) :
  exists q, s = take_while p s ++ q /\ forallb p (take_while p s) = true.
Proof.
  induction s as [|c s [q [E H]]]; [now exists []|].
  cbn [take_while]. destruct (p c) eqn:Hc.
  - exists q. cbn [app forallb]. rewrite Hc, H. now rewrite <- E.
  - now exists (c :: s).
Qed.

Lemma startswith_split (p s : str) :
  startswith p s = true -> s = p ++ skipn (List.length p) s.
Proof.
  revert s. induction p as [|a p IH]; intros s H; [reflexivity|].
  destruct s as [|b s]; [discriminate|]. cbn [startswith] in H.
  apply andb_prop in H as [Hab H]. apply Z.eqb_eq in Hab as ->.
  cbn [List.length skipn app]. f_equal. now apply IH.
Qed.

(** The run found after a marker is made of name characters and stands in
    the utterance. *)
Lemma run_after_run (mk s run : str) :
  run_after mk s = Some run ->
  substring run s /\ forallb name_char run = true.
Proof.
  unfold run_after. destruct (startswith mk s) eqn:Hs; [|discriminate].
  destruct (take_while_split name_char (skipn (List.length mk) s)) as [q [E H]].
  destruct (take_while name_char (skipn (List.length mk) s)) as [|x r] eqn:Ht;
    [discriminate|].
  intros [= <-]. split; [|exact H].
  exists mk, q. rewrite <- E. now apply startswith_split.
Qed.

Lemma first_some_found {A B} (f : A -> option B) (l : list A) (b : B) :
  first_some f l = Some b -> exists a, In a l /\ f a = Some b.
Proof.
  induction l as [|a l IH]; [discriminate|]. cbn [first_some].
  destruct (f a) as [b'|] eqn:E.
  - intros [= <-]. exists a. split; [now left|exact E].
  - intros H. destruct (IH H) as [a' [Hin Ha']]. exists a'. split; [now right|exact Ha'].
Qed.

Lemma first_marker_run_run (s run : str) :
  first_marker_run s = Some run ->
  substring run s /\ forallb name_char run = true.
Proof.
  induction s as [|c s IH]; cbn [first_marker_run].
  - destruct (first_some (fun mk => run_after mk []) markers) as [r|] eqn:E;
      [|discriminate].
    intros [= <-]. apply first_some_found in E as [mk [_ E]].
    now apply run_after_run in E.
  - destruct (first_some (fun mk => run_after mk (c :: s)) markers) as [r|] eqn:E.
    + intros [= <-]. apply first_some_found in E as [mk [_ E]].
      now apply run_after_run in E.
    + intros H. destruct (IH H) as [Hsub Hall]. split; [|exact Hall].
      now apply substring_cons.
Qed.

(** ** More on the name extractor *)

(** X1: the extractor never raises, and what it returns is a run of
    consecutive characters of the utterance. *)
Theorem extract_destination_substring (text : str) :
  exists s, extract_destination text = Ok s /\ substring s text.
Proof.
  rewrite extract_destination_spec.
  destruct (first_marker_run text) as [run|] eqn:E.
  - exists (strip run). split; [reflexivity|].
    apply (substring_trans _ run); [apply strip_substring|].
    now apply first_marker_run_run in E.
  - exists (strip text). split; [reflexivity|apply strip_substring].
Qed.

(** X2: what the extractor returns has no white space at either end:
    stripping it again on the left or on the right changes nothing. *)
Theorem extract_destination_stripped (text s : str) :
  extract_destination text = Ok s ->
  lstrip s = s /\ rstrip s = s.
Proof.
  rewrite extract_destination_spec. intros [= <-]. apply strip_stripped.
Qed.

Lemma extract_destination_stripped_witness :
  lstrip (utf8 "مطعم الديوان") = utf8 "مطعم الديوان"
  /\ rstrip (utf8 "مطعم الديوان") = utf8 "مطعم الديوان".
Proof.
  apply (extract_destination_stripped (utf8 "خذني إلى   مطعم الديوان  ")).
  reflexivity.
Defined.

Lemma all_space_no_lam (text : str) :
  forallb isspace text = true -> contains [LAM] text = false.
Proof.
  rewrite contains_lam. induction text as [|c t IH]; [reflexivity|].
  cbn [forallb existsb]. intros H. apply andb_prop in H as [Hc Ht].
  rewrite (IH Ht), orb_false_r. apply Z.eqb_neq. intros <-. discriminate.
Qed.

Lemma extract_destination_blank_aux (text : str) :
  forallb isspace text = true ->
  extract_destination text = Ok [].
Proof.
  intros H. rewrite extract_destination_spec.
  rewrite (no_lam_no_run text (all_space_no_lam text H)).
  now rewrite strip_all_space.
Qed.

(** X3: an utterance of white space only, the empty one included (what
    [azure_transcribe] returns when nothing is recognised), gives the empty
    string. *)
Theorem extract_destination_blank (text : str) :
  forallb isspace text = true ->
  extract_destination text = Ok [].
Proof.
  intros H. rewrite extract_destination_spec.
  rewrite (no_lam_no_run text (all_space_no_lam text H)).
  now rewrite strip_all_space.
Qed.

Lemma extract_destination_blank_witness :
  extract_destination (utf8 "  ") = Ok [].
Proof. apply (extract_destination_blank (utf8 "  ")). reflexivity. Defined.

(** X4: when the pattern is found in the utterance, every character of the
    result is of the Arabic block or white space, whatever else the
    utterance holds. *)
Theorem extract_destination_name_chars (text : str) :
  search destination_pattern text <> None ->
  exists s, extract_destination text = Ok s /\ forallb name_char s = true.
Proof.
  intros Hfound. pose proof (search_first_marker_run text) as H.
  rewrite extract_destination_spec.
  destruct (first_marker_run text) as [run|] eqn:E; [|contradiction].
  exists (strip run). split; [reflexivity|].
  apply (substring_forallb name_char _ run); [apply strip_substring|].
  now apply first_marker_run_run in E.
Qed.

Lemma extract_destination_name_chars_witness :
  exists s,
    extract_destination (utf8 "please: إلى مطعم الديوان, thanks") = Ok s
    /\ forallb name_char s = true.
Proof.
  apply (extract_destination_name_chars (utf8 "please: إلى مطعم الديوان, thanks")).
  discriminate.
Defined.

(** ** More on the resolver *)

Lemma extractOne_in (L : library) (q : str) (names : list value)
      (best : value) (sc : Z) :
  extractOne L q names = Some (best, sc) ->
  In best names /\ sc = score L q best.
Proof.
  unfold extractOne.
  destruct (extractWithoutOrder L q names) as [|x rest] eqn:E; [discriminate|].
  intros [= H]. pose proof (max_by_score_in x rest) as Hin.
  rewrite H, <- E in Hin. unfold extractWithoutOrder in Hin.
  apply filter_In in Hin as [Hin _]. apply in_map_iff in Hin as [c [Ec Hc]].
  injection Ec as -> <-. now split.
Qed.

Lemma named_row_exists (d : list row) (b : str) :
  In (PStr b) (map Display_Name d) ->
  exists r rest, rows_named d (PStr b) = r :: rest /\ Display_Name r = PStr b.
Proof.
  intros H. apply in_map_iff in H as [r0 [Hr0 Hin]].
  assert (Hf : In r0 (rows_named d (PStr b))).
  { unfold rows_named. apply filter_In. split; [exact Hin|].
    now apply py_eq_PStr. }
  destruct (rows_named d (PStr b)) as [|r rest] eqn:E; [contradiction|].
  exists r, rest. split; [reflexivity|].
  assert (Hr : In r (rows_named d (PStr b))) by (rewrite E; now left).
  unfold rows_named in Hr. apply filter_In in Hr as [_ Hr].
  now apply py_eq_PStr.
Qed.

Lemma find_best_match_in (L : library) (d : list row) (q : str)
      (best : value) (sc : Z) :
  find_best_match L d q = Ok (best, sc) ->
  In best (dropna (map Display_Name d)) /\ sc = score L q best.
Proof.
  unfold find_best_match.
  destruct (extractOne L q (dropna (map Display_Name d))) as [[b s]|] eqn:E;
    [|discriminate].
  intros [= <- <-]. apply extractOne_in in E as [Hin ->]. split; [exact Hin|].
  now destruct (Z.eqb_spec (score L q b) 0) as [->|_].
Qed.

(** X5: with scores between 0 and 100, the resolver returns the first
    display name, in the order of the catalog, that has the largest score,
    with that score: the names before it score less, the names after it no
    more. *)
Theorem find_best_match_tie_break (L : library) (d : list row) (query : str) :
  (forall a b, 0 <= weighted L a b <= 100) ->
  dropna (map Display_Name d) <> [] ->
  exists best before after,
    find_best_match L d query = Ok (best, score L query best)
    /\ dropna (map Display_Name d) = before ++ best :: after
    /\ (forall c, In c before -> score L query c < score L query best)
    /\ (forall c, In c after -> score L query c <= score L query best).
Proof. apply find_best_match_first_max. Qed.

Lemma find_best_match_tie_break_witness :
  exists best before after,
    find_best_match sample_library (df diwan_file) (utf8 "مطعم الديوان")
    = Ok (best, score sample_library (utf8 "مطعم الديوان") best)
    /\ dropna (map Display_Name (df diwan_file)) = before ++ best :: after
    /\ (forall c, In c before ->
          score sample_library (utf8 "مطعم الديوان") c
          < score sample_library (utf8 "مطعم الديوان") best)
    /\ (forall c, In c after ->
          score sample_library (utf8 "مطعم الديوان") c
          <= score sample_library (utf8 "مطعم الديوان") best).
Proof.
  apply (find_best_match_tie_break sample_library (df diwan_file)).
  - exact sample_weighted_range.
  - discriminate.
Defined.

Lemma resolved_name_has_row_aux (L : library) (d : list row) (q : str)
      (best : value) (sc : Z) :
  find_best_match L d q = Ok (best, sc) ->
  exists r rest, rows_named d best = r :: rest /\ get_path d best = Path r.
Proof.
  intros H. apply find_best_match_in in H as [Hin _].
  unfold dropna in Hin. apply filter_In in Hin as [Hin Hna].
  destruct best as [b|]; [|discriminate].
  destruct (named_row_exists d b Hin) as [r [rest [Hrows Hr]]].
  exists r, rest. unfold get_path. now rewrite Hrows.
Qed.

(** X6: the name the resolver returns is a string that some row has as its
    display name, so the route lookup that follows finds a row and returns
    the route cell of the first one with that name, never its default. *)
Theorem resolved_name_has_row (L : library) (d : list row) (q : str)
        (best : value) (sc : Z) :
  find_best_match L d q = Ok (best, sc) ->
  exists b r rest,
    best = PStr b
    /\ rows_named d best = r :: rest
    /\ Display_Name r = best
    /\ get_path d best = Path r.
Proof.
  intros H. apply find_best_match_in in H as [Hin _].
  unfold dropna in Hin. apply filter_In in Hin as [Hin Hna].
  destruct best as [b|]; [|discriminate].
  destruct (named_row_exists d b Hin) as [r [rest [Hrows Hr]]].
  exists b, r, rest. unfold get_path. rewrite Hrows. auto.
Qed.

Lemma resolved_name_has_row_witness :
  exists b r rest,
    PStr (utf8 "مطعم الديوان") = PStr b
    /\ rows_named (df diwan_file) (PStr (utf8 "مطعم الديوان")) = r :: rest
    /\ Display_Name r = PStr (utf8 "مطعم الديوان")
    /\ get_path (df diwan_file) (PStr (utf8 "مطعم الديوان")) = Path r.
Proof.
  apply (resolved_name_has_row sample_library (df diwan_file)
           (utf8 "مطعم الديوان") (PStr (utf8 "مطعم الديوان")) 100).
  reflexivity.
Defined.

Lemma max_by_score_keeps (x : value * Z) (rest : list (value * Z)) :
  (forall y, In y rest -> snd y <= snd x) -> max_by_score x rest = x.
Proof.
  unfold max_by_score. induction rest as [|y rest IH]; intros H; [reflexivity|].
  cbn [fold_left]. destruct (Z.ltb_spec (snd x) (snd y)) as [Hlt|_].
  - specialize (H y (or_introl eq_refl)). lia.
  - apply IH. intros z Hz. apply H. now right.
Qed.

Lemma score_unintelligible (L : library) (q : str) (c : value) :
  processed_query L q = [] -> score L q c = 0.
Proof. intros H. unfold score, WRatio. now rewrite H. Qed.

Lemma extractOne_unintelligible (L : library) (q : str) (c : value)
      (cs : list value) :
  processed_query L q = [] ->
  extractOne L q (c :: cs) = Some (c, 0).
Proof.
  intros H. unfold extractOne, extractWithoutOrder.
  assert (E : forall l, filter (fun cs0 : value * Z => score_cutoff <=? snd cs0)
                          (map (fun choice => (choice, score L q choice)) l)
                        = map (fun choice => (choice, 0)) l).
  { induction l as [|a l IH]; [reflexivity|].
    cbn [map filter snd]. rewrite (score_unintelligible L q a H), IH. reflexivity. }
  rewrite E. cbn [map]. f_equal. apply max_by_score_keeps.
  intros y Hy. apply in_map_iff in Hy as [a [<- _]]. cbn [snd]. lia.
Qed.

Lemma find_best_match_unintelligible_aux (L : library) (d : list row) (q : str)
      (c : value) (cs : list value) :
  processed_query L q = [] ->
  dropna (map Display_Name d) = c :: cs ->
  find_best_match L d q = Ok (c, 0).
Proof.
  intros Hq Hnames. unfold find_best_match. rewrite Hnames.
  now rewrite (extractOne_unintelligible L q c cs Hq).
Qed.

(** X7: a query whose processed form is empty (no letter and no digit, or
    nothing at all) scores 0 against every name, and the resolver returns the
    first display name of the catalog with score 0, whatever the library
    computes for other strings. *)
Theorem find_best_match_unintelligible (L : library) (d : list row) (q : str)
        (c : value) (cs : list value) :
  processed_query L q = [] ->
  dropna (map Display_Name d) = c :: cs ->
  find_best_match L d q = Ok (c, 0).
Proof.
  intros Hq Hnames. unfold find_best_match. rewrite Hnames.
  now rewrite (extractOne_unintelligible L q c cs Hq).
Qed.

Lemma find_best_match_unintelligible_witness :
  find_best_match sample_library (df diwan_file) (utf8 "?!")
  = Ok (PStr (utf8 "مطعم الديوان"), 0).
Proof.
  apply (find_best_match_unintelligible sample_library (df diwan_file)
           (utf8 "?!") (PStr (utf8 "مطعم الديوان")) []).
  - reflexivity.
  - reflexivity.
Defined.

(** X8: in a file without the column [English_name] no display name is
    missing, so every row takes part in the resolution, and on such a file
    with one row at least the resolver returns and does not raise. *)
Theorem no_fallback_column_all_rows (L : library) (f : csv) (q : str) :
  (forall a b, 0 <= weighted L a b <= 100) ->
  has_English_name f = false ->
  csv_rows f <> [] ->
  dropna (map Display_Name (df f)) = map Display_Name (df f)
  /\ List.length (dropna (map Display_Name (df f))) = List.length (csv_rows f)
  /\ exists best sc, find_best_match L (df f) q = Ok (best, sc).
Proof.
  intros Hrange Hcol Hrows.
  assert (E : dropna (map Display_Name (df f)) = map Display_Name (df f)).
  { unfold df. rewrite map_map. cbn [Display_Name]. unfold dropna, display_name.
    rewrite Hcol. generalize (csv_rows f). intros l.
    induction l as [|r l IH]; [reflexivity|].
    cbn [map filter]. rewrite IH. now destruct (csv_Name r). }
  split; [exact E|]. split.
  - rewrite E. unfold df. now rewrite !length_map.
  - destruct (find_best_match_first_max L (df f) q Hrange) as [best [_ [_ [H _]]]].
    + rewrite E. unfold df. destruct (csv_rows f); [congruence|discriminate].
    + now exists best, (score L q best).
Qed.

Lemma no_fallback_column_all_rows_witness :
  dropna (map Display_Name (df nameless_file)) = map Display_Name (df nameless_file)
  /\ List.length (dropna (map Display_Name (df nameless_file)))
     = List.length (csv_rows nameless_file)
  /\ exists best sc,
      find_best_match sample_library (df nameless_file) (utf8 "مطعم") = Ok (best, sc).
Proof.
  apply (no_fallback_column_all_rows sample_library nameless_file).
  - exact sample_weighted_range.
  - reflexivity.
  - discriminate.
Defined.

(** ** More on the loop *)

Lemma no_directions_nonempty : no_directions <> [].
Proof. discriminate. Qed.

Lemma extract_destination_ok (text : str) :
  exists dest, extract_destination text = Ok dest.
Proof. rewrite extract_destination_spec. now eexists. Qed.

(** A turn whose resolver raises. *)
Lemma turn_unresolved (L : library) (d : list row) (text question dest : str)
      (e : exn) :
  contains WAKE_WORD text = true ->
  extract_destination question = Ok dest ->
  find_best_match L d dest = Raise e ->
  turn L d text question [] = ([Spoke ask_question], Raise e).
Proof.
  intros Hwake Hdest Hbest. unfold turn. rewrite Hwake.
  unfold mbind, lift.
  rewrite (azure_speak_nonempty _ _ ask_question_nonempty).
  now rewrite Hdest, Hbest.
Qed.

(** X9: a turn looks up a route only for a name the resolver returned with
    a score of 60 or more, after the wake word was heard; the name is then a
    display name of the catalog. *)
Theorem turn_lookup_only_accepted (L : library) (d : list row)
        (text question : str) (name : value) :
  In (LookedUp name) (fst (turn L d text question [])) ->
  contains WAKE_WORD text = true
  /\ exists dest sc,
      extract_destination question = Ok dest
      /\ find_best_match L d dest = Ok (name, sc)
      /\ 60 <= sc
      /\ In name (map Display_Name d).
Proof.
  intros Hin. destruct (contains WAKE_WORD text) eqn:Hwake.
  2:{ unfold turn in Hin. rewrite Hwake in Hin. destruct Hin. }
  split; [reflexivity|].
  destruct (extract_destination_ok question) as [dest Hdest].
  destruct (find_best_match L d dest) as [[best sc]|e] eqn:Hbest.
  2:{ rewrite (turn_unresolved L d text question dest e Hwake Hdest Hbest) in Hin.
      destruct Hin as [E|[]]. discriminate. }
  rewrite (turn_resolved L d text question dest best sc Hwake Hdest Hbest) in Hin.
  unfold threshold in Hin. destruct (Z.ltb_spec sc 60) as [Hlt|Hge].
  { destruct Hin as [E|[E|[]]]; discriminate. }
  assert (Hname : name = best).
  { destruct (negb (truthy (get_path d best))).
    - rewrite (azure_speak_nonempty _ _ no_directions_nonempty) in Hin.
      destruct Hin as [E|[E|[E|[]]]]; congruence.
    - destruct Hin as [E|[E|[E|[]]]]; congruence. }
  subst best. exists dest, sc. repeat split; try assumption.
  apply find_best_match_in in Hbest as [Hb _]. unfold dropna in Hb.
  now apply filter_In in Hb as [Hb _].
Qed.

Lemma turn_lookup_only_accepted_witness :
  contains WAKE_WORD (utf8 "سراج") = true
  /\ exists dest sc,
      extract_destination (utf8 "خذني إلى مطعم الديوان") = Ok dest
      /\ find_best_match sample_library (df diwan_file) dest
         = Ok (PStr (utf8 "مطعم الديوان"), sc)
      /\ 60 <= sc
      /\ In (PStr (utf8 "مطعم الديوان")) (map Display_Name (df diwan_file)).
Proof.
  apply (turn_lookup_only_accepted sample_library (df diwan_file)
           (utf8 "سراج") (utf8 "خذني إلى مطعم الديوان")).
  vm_compute. right. left. reflexivity.
Defined.

(** X10: on a catalog with no display name, a turn that hears the wake
    word speaks its prompt and then ends in [TypeError], whatever the
    question; [main] catches [KeyboardInterrupt] only. *)
Theorem turn_no_names_raises (L : library) (d : list row) (text question : str) :
  contains WAKE_WORD text = true ->
  dropna (map Display_Name d) = [] ->
  turn L d text question [] = ([Spoke ask_question], Raise TypeError).
Proof.
  intros Hwake Hnames. destruct (extract_destination_ok question) as [dest Hdest].
  apply (turn_unresolved L d text question dest TypeError Hwake Hdest).
  unfold find_best_match, extractOne, extractWithoutOrder. now rewrite Hnames.
Qed.

Lemma turn_no_names_raises_witness :
  turn sample_library (df unnamed_file) (utf8 "سراج") (utf8 "خذني إلى مطعم الديوان") []
  = ([Spoke ask_question], Raise TypeError).
Proof.
  apply (turn_no_names_raises sample_library (df unnamed_file)); reflexivity.
Defined.

Lemma processed_query_empty (L : library) : processed_query L [] = [].
Proof. destruct L. reflexivity. Qed.

(** X11: when the question is empty or white space only (nothing was
    recognised), a turn on a catalog with a display name answers that the
    name was not understood, and looks nothing up, whatever the library's
    ratio is. *)
Theorem turn_blank_question (L : library) (d : list row) (text question : str) :
  contains WAKE_WORD text = true ->
  forallb isspace question = true ->
  dropna (map Display_Name d) <> [] ->
  turn L d text question [] = ([Spoke ask_question; Spoke not_understood], Ok tt).
Proof.
  intros Hwake Hblank Hnames.
  destruct (dropna (map Display_Name d)) as [|c cs] eqn:E; [congruence|].
  rewrite (turn_resolved L d text question [] c 0 Hwake).
  - reflexivity.
  - now apply extract_destination_blank_aux.
  - apply (find_best_match_unintelligible_aux L d [] c cs); [|exact E].
    apply processed_query_empty.
Qed.

Lemma turn_blank_question_witness :
  turn sample_library (df diwan_file) (utf8 "سراج") (utf8 " ") []
  = ([Spoke ask_question; Spoke not_understood], Ok tt).
Proof.
  apply (turn_blank_question sample_library (df diwan_file)).
  - reflexivity.
  - reflexivity.
  - discriminate.
Defined.

(** X12: in a turn where the resolver's score is 60 or more, a row with the
    resolved name exists, its route is looked up once, and the answer is the
    route message with the route cell of the first such row; the message
    that no directions are available is spoken only when that cell is the
    empty string. *)
Theorem turn_accepted (L : library) (d : list row) (text question dest : str)
        (best : value) (sc : Z) :
  contains WAKE_WORD text = true ->
  extract_destination question = Ok dest ->
  find_best_match L d dest = Ok (best, sc) ->
  60 <= sc ->
  exists r rest,
    rows_named d best = r :: rest
    /\ turn L d text question []
       = ([Spoke ask_question; LookedUp best;
           Spoke (match Path r with
                  | PStr [] => no_directions
                  | PStr (_ :: _) | PNaN => route_message best (Path r)
                  end)], Ok tt).
Proof.
  intros Hwake Hdest Hbest Hhigh.
  destruct (resolved_name_has_row_aux L d dest best sc Hbest) as [r [rest [Hrows Hget]]].
  exists r, rest. split; [exact Hrows|].
  rewrite (turn_resolved L d text question dest best sc Hwake Hdest Hbest).
  unfold threshold. destruct (Z.ltb_spec sc 60); [lia|].
  rewrite Hget. destruct (Path r) as [[|x p]|]; reflexivity.
Qed.

Lemma turn_accepted_witness :
  exists r rest,
    rows_named (df diwan_file) (PStr (utf8 "مطعم الديوان")) = r :: rest
    /\ turn sample_library (df diwan_file)
         (utf8 "سراج") (utf8 "خذني إلى مطعم الديوان") []
       = ([Spoke ask_question; LookedUp (PStr (utf8 "مطعم الديوان"));
           Spoke (match Path r with
                  | PStr [] => no_directions
                  | PStr (_ :: _) | PNaN =>
                      route_message (PStr (utf8 "مطعم الديوان")) (Path r)
                  end)], Ok tt).
Proof.
  apply (turn_accepted sample_library (df diwan_file)
           (utf8 "سراج") (utf8 "خذني إلى مطعم الديوان") (utf8 "مطعم الديوان")
           (PStr (utf8 "مطعم الديوان")) 100).
  - reflexivity.
  - reflexivity.
  - vm_compute. reflexivity.
  - lia.
Defined.

(** ** More on [lookup_route] and its handler *)

Lemma dropna_all_present (l : list value) :
  (forall v, In v l -> v <> PNaN) -> dropna l = l.
Proof.
  intros H. unfold dropna. induction l as [|v l IH]; [reflexivity|].
  cbn [filter]. destruct v as [s|].
  - cbn [notna]. f_equal. apply IH. intros v Hv. apply H. now right.
  - exfalso. apply (H PNaN); [now left|reflexivity].
Qed.

(** X13: on a catalog where no display name is missing, [lookup_route]
    gives what the loop of [siraj_pipeline.py] looks up: the route of the
    exact name when a row has it, and else the route of the resolver's best
    match when its score is 60 or more, the empty string below 60, and the
    resolver's exception when it raises. *)
Theorem lookup_route_as_pipeline (L : library) (d : list row) (name : str) :
  (forall r, In r d -> Display_Name r <> PNaN) ->
  lookup_route L d name
  = match rows_named d (PStr name) with
    | _ :: _ => Ok (get_path d (PStr name))
    | [] =>
        match find_best_match L d name with
        | Raise e => Raise e
        | Ok (best, sc) =>
            if sc <? threshold then Ok (PStr []) else Ok (get_path d best)
        end
    end.
Proof.
  intros Hpresent.
  assert (Hnames : dropna (map Display_Name d) = map Display_Name d).
  { apply dropna_all_present. intros v Hv. apply in_map_iff in Hv as [r [<- Hr]].
    now apply Hpresent. }
  unfold lookup_route.
  destruct (rows_named d (PStr name)) as [|r rest] eqn:Hexact;
    [|unfold get_path; now rewrite Hexact].
  unfold find_best_match. rewrite Hnames.
  destruct (extractOne L name (map Display_Name d)) as [[best sc]|] eqn:E;
    [|reflexivity].
  replace (if sc =? 0 then 0 else sc) with sc
    by (destruct (Z.eqb_spec sc 0); congruence).
  unfold threshold. destruct (Z.ltb_spec sc 60) as [Hlt|Hge];
    destruct (Z.leb_spec 60 sc); try lia; [reflexivity|].
  apply extractOne_in in E as [Hin _].
  destruct best as [b|].
  - destruct (named_row_exists d b Hin) as [r [rest [Hrows _]]].
    unfold get_path. now rewrite Hrows.
  - apply in_map_iff in Hin as [r [Hr Hin]]. now apply Hpresent in Hin.
Qed.

Lemma lookup_route_as_pipeline_witness :
  lookup_route sample_library (df diwan_file) (utf8 "?!")
  = match rows_named (df diwan_file) (PStr (utf8 "?!")) with
    | _ :: _ => Ok (get_path (df diwan_file) (PStr (utf8 "?!")))
    | [] =>
        match find_best_match sample_library (df diwan_file) (utf8 "?!") with
        | Raise e => Raise e
        | Ok (best, sc) =>
            if sc <? threshold then Ok (PStr [])
            else Ok (get_path (df diwan_file) best)
        end
    end.
Proof.
  apply (lookup_route_as_pipeline sample_library (df diwan_file) (utf8 "?!")).
  intros r [<-|[]]. discriminate.
Defined.

(** X14: with scores between 0 and 100, [lookup_route] raises [TypeError]
    exactly on the catalog with no row. *)
Theorem lookup_route_type_error (L : library) (d : list row) (name : str) :
  (forall a b, 0 <= weighted L a b <= 100) ->
  (lookup_route L d name = Raise TypeError <-> d = []).
Proof.
  intros Hrange. split.
  - intros H. destruct d as [|r0 d0]; [reflexivity|]. exfalso.
    unfold lookup_route in H.
    destruct (rows_named (r0 :: d0) (PStr name)); [|discriminate].
    unfold extractOne in H. rewrite (extractWithoutOrder_all L Hrange) in H.
    cbn [map] in H.
    destruct (max_by_score _ _) as [best sc].
    destruct (60 <=? sc); [|discriminate].
    destruct (rows_named (r0 :: d0) best); discriminate.
  - intros ->. reflexivity.
Qed.

Lemma lookup_route_type_error_witness :
  lookup_route sample_library (df empty_file) (utf8 "مطعم الديوان") = Raise TypeError
  <-> df empty_file = [].
Proof.
  apply (lookup_route_type_error sample_library (df empty_file)).
  exact sample_weighted_range.
Defined.

Lemma full_process_ascii_nan (L : library) : full_process_ascii L PNaN = utf8 "nan".
Proof. destruct L. reflexivity. Qed.

Lemma rows_named_missing (d : list row) (v : value) :
  (forall r, In r d -> Display_Name r = PNaN) -> rows_named d v = [].
Proof.
  intros H. unfold rows_named. induction d as [|r d IH]; [reflexivity|].
  cbn [filter]. rewrite (H r (or_introl eq_refl)). cbn [py_eq].
  apply IH. intros r' Hr'. apply H. now right.
Qed.

(** X15: [lookup_route] scores a missing display name as the text of the
    marker. On a catalog whose display names are all missing, a name whose
    processed form is that text finds the marker as its best match with
    score 100, no row is equal to it, and the lookup ends in [IndexError]. *)
Theorem lookup_route_missing_names (L : library) (d : list row) (name : str) :
  (forall a, a <> [] -> weighted L a a = 100) ->
  d <> [] ->
  (forall r, In r d -> Display_Name r = PNaN) ->
  processed_query L name = utf8 "nan" ->
  lookup_route L d name = Raise IndexError.
Proof.
  intros Hrefl Hne Hmissing Hq. unfold lookup_route.
  rewrite (rows_named_missing d (PStr name) Hmissing).
  assert (Hscore : score L name PNaN = 100).
  { unfold score, WRatio. rewrite Hq, full_process_ascii_nan.
    apply Hrefl. discriminate. }
  assert (Hall : extractWithoutOrder L name (map Display_Name d)
                 = map (fun _ => (PNaN, 100)) d).
  { unfold extractWithoutOrder. clear Hne.
    induction d as [|r d0 IH]; [reflexivity|].
    cbn [map filter snd]. rewrite (Hmissing r (or_introl eq_refl)), Hscore.
    cbn [snd]. replace (score_cutoff <=? 100) with true by reflexivity.
    f_equal. apply IH. intros r' Hr'. apply Hmissing. now right. }
  unfold extractOne. rewrite Hall.
  destruct d as [|r0 d0]; [congruence|]. cbn [map].
  rewrite max_by_score_keeps.
  - replace (60 <=? 100) with true by reflexivity.
    now rewrite (rows_named_missing (r0 :: d0) PNaN Hmissing).
  - intros y Hy. apply in_map_iff in Hy as [r' [<- _]]. cbn [snd]. lia.
Qed.

Lemma lookup_route_missing_names_witness :
  lookup_route sample_library (df unnamed_file) (utf8 "NaN") = Raise IndexError.
Proof.
  apply (lookup_route_missing_names sample_library (df unnamed_file) (utf8 "NaN")).
  - exact sample_weighted_refl.
  - discriminate.
  - intros r [<-|[]]. reflexivity.
  - reflexivity.
Defined.

(** X16: for a requested name that a row has as its display name, the
    handler answers with the route message for that name and the route cell
    of the first such row, a missing cell shown as the marker's text; only
    an empty route string gives the message that no directions are found. *)
Theorem get_route_handler_exact (L : library) (d l1 l2 : list row) (r : row)
        (args : FlowArgs) (name : str) :
  dict_get (utf8 "restaurant") args = Some name ->
  d = l1 ++ r :: l2 ->
  Display_Name r = PStr name ->
  (forall r', In r' l1 -> Display_Name r' <> PStr name) ->
  get_route_handler L d args
  = Output (match Path r with
            | PStr [] => not_found_message name
            | PStr (_ :: _) | PNaN => route_message (PStr name) (Path r)
            end).
Proof.
  intros Hargs Hd Hr Hl1. unfold get_route_handler, lookup_route.
  rewrite Hargs, (rows_named_first d l1 l2 r name Hd Hr Hl1).
  now destruct (Path r) as [[|x p]|].
Qed.

Lemma get_route_handler_exact_witness :
  get_route_handler sample_library (df diwan_no_route_file)
    [(utf8 "restaurant", utf8 "مطعم الديوان")]
  = Output (route_message (PStr (utf8 "مطعم الديوان")) PNaN).
Proof.
  refine (eq_trans
            (get_route_handler_exact sample_library (df diwan_no_route_file) [] []
               {| Display_Name := PStr (utf8 "مطعم الديوان"); Path := PNaN |}
               [(utf8 "restaurant", utf8 "مطعم الديوان")] (utf8 "مطعم الديوان")
               _ _ _ _) _).
  - vm_compute. reflexivity.
  - reflexivity.
  - reflexivity.
  - intros r' [].
  - reflexivity.
Defined.



(** ** The loop of [main] *)

Lemma greeting_nonempty : greeting <> [].
Proof. discriminate. Qed.

(** A recording wakes the assistant when speech was recognised in it and
    its text holds the wake word. *)
Lemma azure_transcribe_wakes (r : recognition) :
  contains WAKE_WORD (azure_transcribe r) = true ->
  result_reason r = RecognizedSpeech /\ contains WAKE_WORD (result_text r) = true.
Proof.
  unfold azure_transcribe. destruct (result_reason r); [auto|discriminate].
Qed.

Lemma listen_skip (L : library) (d : list row) (pre rest : list recognition)
      (t : list event) :
  (forall r, In r pre -> contains WAKE_WORD (azure_transcribe r) = false) ->
  listen L d (pre ++ rest) t = listen L d rest t.
Proof.
  intros H. induction pre as [|r pre IH]; [reflexivity|].
  cbn [app listen]. rewrite (H r (or_introl eq_refl)).
  apply IH. intros r' Hr'. apply H. now right.
Qed.

(** X18: as long as no recording has the wake word in recognised speech,
    [main] speaks its greeting and nothing else: recordings whose
    recognition failed, or without the wake word, are passed over. *)
Theorem main_waits_for_wake_word (L : library) (d : list row)
        (recordings : list recognition) :
  (forall r, In r recordings ->
             result_reason r <> RecognizedSpeech
             \/ contains WAKE_WORD (result_text r) = false) ->
  main L d recordings [] = ([Spoke greeting], Ok tt).
Proof.
  intros H. unfold main, mbind.
  rewrite (azure_speak_nonempty _ _ greeting_nonempty). cbn [app].
  rewrite <- (app_nil_r recordings). rewrite listen_skip; [reflexivity|].
  intros r Hr. destruct (contains WAKE_WORD (azure_transcribe r)) eqn:E;
    [|reflexivity].
  apply azure_transcribe_wakes in E as [E1 E2].
  destruct (H r Hr) as [H1|H2]; congruence.
Qed.

Lemma main_waits_for_wake_word_witness :
  main sample_library (df diwan_file)
    [ {| result_reason := OtherReason; result_text := utf8 "سراج" |};
      {| result_reason := RecognizedSpeech; result_text := utf8 "مرحبا" |} ] []
  = ([Spoke greeting], Ok tt).
Proof.
  apply (main_waits_for_wake_word sample_library (df diwan_file)).
  intros r [<-|[<-|[]]].
  - left. discriminate.
  - right. reflexivity.
Defined.

(** X19: on a catalog with no display name, [main] speaks its greeting,
    asks for the question at the first recording with the wake word, and
    ends in [TypeError] once the question is transcribed: the recordings
    that follow are never served. *)
Theorem main_no_names_stops (L : library) (d : list row)
        (pre post : list recognition) (r q : recognition) :
  dropna (map Display_Name d) = [] ->
  (forall r', In r' pre -> contains WAKE_WORD (azure_transcribe r') = false) ->
  contains WAKE_WORD (azure_transcribe r) = true ->
  main L d (pre ++ r :: q :: post) []
  = ([Spoke greeting; Spoke ask_question], Raise TypeError).
Proof.
  intros Hnames Hpre Hwake. unfold main, mbind.
  rewrite (azure_speak_nonempty _ _ greeting_nonempty). cbn [app].
  rewrite (listen_skip L d pre _ _ Hpre). cbn [listen]. rewrite Hwake.
  unfold mbind.
  destruct (extract_destination_ok (azure_transcribe q)) as [dest Hdest].
  unfold turn. rewrite Hwake. unfold mbind, lift.
  rewrite (azure_speak_nonempty _ _ ask_question_nonempty), Hdest.
  unfold find_best_match, extractOne, extractWithoutOrder. now rewrite Hnames.
Qed.

Lemma main_no_names_stops_witness :
  main sample_library (df unnamed_file)
    ([ {| result_reason := OtherReason; result_text := [] |} ]
     ++ {| result_reason := RecognizedSpeech; result_text := utf8 "يا سراج" |}
     :: {| result_reason := RecognizedSpeech;
           result_text := utf8 "خذني إلى مطعم الديوان" |}
     :: [ {| result_reason := RecognizedSpeech; result_text := utf8 "يا سراج" |} ]) []
  = ([Spoke greeting; Spoke ask_question], Raise TypeError).
Proof.
  apply (main_no_names_stops sample_library (df unnamed_file)).
  - reflexivity.
  - intros r' [<-|[]]. reflexivity.
  - reflexivity.
Defined.

(** X20: when the recognition of the question fails, on a catalog with a
    display name, the turn answers that the name was not understood and the
    loop goes on with the next recording. *)
Theorem main_question_not_recognised (L : library) (d : list row)
        (r q : recognition) (rest : list recognition) :
  dropna (map Display_Name d) <> [] ->
  contains WAKE_WORD (azure_transcribe r) = true ->
  result_reason q = OtherReason ->
  main L d (r :: q :: rest) []
  = listen L d rest [Spoke greeting; Spoke ask_question; Spoke not_understood].
Proof.
  intros Hnames Hwake Hq. unfold main, mbind.
  rewrite (azure_speak_nonempty _ _ greeting_nonempty). cbn [app listen].
  rewrite Hwake. unfold mbind.
  assert (Hquestion : azure_transcribe q = []).
  { unfold azure_transcribe. now rewrite Hq. }
  rewrite Hquestion.
  destruct (dropna (map Display_Name d)) as [|c cs] eqn:E; [congruence|].
  unfold turn. rewrite Hwake. unfold mbind, lift.
  rewrite (azure_speak_nonempty _ _ ask_question_nonempty).
  rewrite (extract_destination_blank_aux [] eq_refl).
  rewrite (find_best_match_unintelligible_aux L d [] c cs (processed_query_empty L) E).
  cbn [app]. replace (0 <? threshold) with true by reflexivity.
  now rewrite (azure_speak_nonempty _ _ not_understood_nonempty).
Qed.

Lemma main_question_not_recognised_witness :
  main sample_library (df diwan_file)
    [ {| result_reason := RecognizedSpeech; result_text := utf8 "يا سراج" |};
      {| result_reason := OtherReason; result_text := [] |} ] []
  = listen sample_library (df diwan_file) []
      [Spoke greeting; Spoke ask_question; Spoke not_understood].
Proof.
  apply (main_question_not_recognised sample_library (df diwan_file)).
  - discriminate.
  - reflexivity.
  - reflexivity.
Defined.
